(** * Day 9: largest rectangle inside a rectilinear polygon

    A shallow embedding of the day 9 solver (area, part1, getInteriorAtY,
    mergeRanges, getCoverageAtY, lowerBound, isRectangleValid, part2) and the
    properties of it that the specification states.

    Modelling choices.
    - Point coordinates are integers ([Z]), as the puzzle input has them, and
      arithmetic on them is exact.  The code computes in IEEE doubles, which
      agree with exact arithmetic as long as every sum, half and product
      stays an integer or half-integer below [2^53]; the theorems whose
      statement depends on a computed value carry a bound on the
      coordinates.  The scanline height [y] handed to
      the coverage engine is a JavaScript number that may be a half-integer
      (a midpoint, or [y + 0.5]), so it is an exact rational ([Q]).  Number
      equality ([===], and the key equality of [Map]) is [Qeq].
    - [Array.prototype.sort] is stable; it is modelled by a stable insertion
      sort on an integer key.
    - The coverage cache is a [Map<number, Range[]>] whose values are array
      references.  Arrays live in a store addressed by allocation index, so
      that "the same array" and "an equal array" are different statements.
    - [(lo + hi) >> 1] converts its operand to a signed 32-bit integer; the
      wrap-around is written out in [toInt32].
    - A [while] loop whose body can [continue] without progress is given
      fuel; [None] stands for a loop that did not finish. *)

From Stdlib Require Import ZArith QArith List Bool Lia Sorted Permutation.
From Stdlib Require Import Reals Lra.
Import ListNotations.

Open Scope Z_scope.

(** ** Numbers *)

Definition Qltb (a b : Q) : bool := negb (Qle_bool b a).

(** [0.5] *)
Definition eps : Q := 1 # 2.

(** ** Data model *)

Record Point := mkPoint { px : Z; py : Z }.

Record Range := mkRange { rstart : Z; rend : Z }.

Record HorizontalEdge := mkHEdge { hy : Z; hx1 : Z; hx2 : Z }.

Record VerticalEdge := mkVEdge { vx : Z; vy1 : Z; vy2 : Z }.

(** ** Sorting: [arr.sort((a, b) => key a - key b)] *)

Section Sort.
Context {A : Type} (key : A -> Z).

Fixpoint insertBy (a : A) (l : list A) : list A :=
  match l with
  | [] => [a]
  | b :: l' => if key a <=? key b then a :: b :: l' else b :: insertBy a l'
  end.

Fixpoint sortBy (l : list A) : list A :=
  match l with
  | [] => []
  | a :: l' => insertBy a (sortBy l')
  end.
End Sort.

(** ** area, part1 *)

Definition area (p1 p2 : Point) : Z :=
  (Z.abs (px p2 - px p1) + 1) * (Z.abs (py p2 - py p1) + 1).

(** The index pairs [i < j] of the two nested loops, in iteration order. *)
Fixpoint pairs (points : list Point) : list (Point * Point) :=
  match points with
  | [] => []
  | p1 :: rest => map (fun p2 => (p1, p2)) rest ++ pairs rest
  end.

(** The body of the inner loop of [part1]. *)
Definition part1Step (maxArea : Z) (pair : Point * Point) : Z :=
  let '(p1, p2) := pair in
  let currentArea := area p1 p2 in
  if currentArea >? maxArea then currentArea else maxArea.

Definition part1 (points : list Point) : Z :=
  fold_left part1Step (pairs points) 0.

(** ** getInteriorAtY *)

Definition crosses (y : Q) (e : VerticalEdge) : bool :=
  Qltb (inject_Z (vy1 e)) y && Qltb y (inject_Z (vy2 e)).

Definition crossingXs (y : Q) (verticalEdges : list VerticalEdge) : list Z :=
  sortBy (fun a => a) (map vx (filter (crosses y) verticalEdges)).

(** The loop [for (i = 0; i < xs.length; i += 2) if (i + 1 < xs.length) push]. *)
Fixpoint pairUp (xs : list Z) : list Range :=
  match xs with
  | x1 :: x2 :: rest => mkRange x1 x2 :: pairUp rest
  | _ => []
  end.

Definition getInteriorAtY (y : Q) (verticalEdges : list VerticalEdge) : list Range :=
  pairUp (crossingXs y verticalEdges).

(** ** mergeRanges *)

(** One iteration of [for (const r of ranges)]: [merged[merged.length - 1]]
    is looked at, then either [r] is pushed or the last range is widened. *)
Definition mergeStep (merged : list Range) (r : Range) : list Range :=
  match nth_error merged (length merged - 1) with
  | None => merged ++ [mkRange (rstart r) (rend r)]
  | Some last =>
      if rend last <? rstart r
      then merged ++ [mkRange (rstart r) (rend r)]
      else removelast merged ++ [mkRange (rstart last) (Z.max (rend last) (rend r))]
  end.

Definition mergeRanges (ranges : list Range) : list Range :=
  match ranges with
  | [] => []
  | _ => fold_left mergeStep (sortBy rstart ranges) []
  end.

(** ** The store: allocated [Range[]] arrays and the coverage cache *)

Definition ArrayRef := nat.

Record Store := mkStore {
  arrays : list (list Range);
  coverageCache : list (Q * ArrayRef)
}.

Definition emptyStore : Store := mkStore [] [].

Definition deref (st : Store) (r : ArrayRef) : list Range :=
  nth r (arrays st) [].

(** [Map.prototype.get] *)
Fixpoint mapGet (k : Q) (m : list (Q * ArrayRef)) : option ArrayRef :=
  match m with
  | [] => None
  | (k', v) :: m' => if Qeq_bool k' k then Some v else mapGet k m'
  end.

(** [Map.prototype.set]: an existing key keeps its position and gets the new
    value, a new key is appended. *)
Fixpoint mapSet (k : Q) (v : ArrayRef) (m : list (Q * ArrayRef)) : list (Q * ArrayRef) :=
  match m with
  | [] => [(k, v)]
  | (k', v') :: m' =>
      if Qeq_bool k' k then (k', v) :: m' else (k', v') :: mapSet k v m'
  end.

(** ** getCoverageAtY *)

Section Polygon.
Variable points : list Point.
Variable verticalEdges : list VerticalEdge.
Variable horizontalEdges : list HorizontalEdge.

Definition isAtVertex (y : Q) : bool :=
  existsb (fun p => Qeq_bool (inject_Z (py p)) y) points.

Definition horizontalSpans (y : Q) : list Range :=
  map (fun e => mkRange (hx1 e) (hx2 e))
      (filter (fun e => Qeq_bool (inject_Z (hy e)) y) horizontalEdges).

(** The value bound to [coverage] on a cache miss. *)
Definition computeCoverage (y : Q) : list Range :=
  if isAtVertex y
  then mergeRanges (getInteriorAtY (y + eps) verticalEdges
                      ++ getInteriorAtY (y - eps) verticalEdges
                      ++ horizontalSpans y)
  else getInteriorAtY y verticalEdges.

Definition getCoverageAtY (y : Q) (st : Store) : ArrayRef * Store :=
  match mapGet y (coverageCache st) with
  | Some cached => (cached, st)
  | None =>
      let coverage := length (arrays st) in
      (coverage,
       mkStore (arrays st ++ [computeCoverage y])
               (mapSet y coverage (coverageCache st)))
  end.
End Polygon.

(** ** lowerBound *)

Definition toInt32 (n : Z) : Z := (n + 2 ^ 31) mod 2 ^ 32 - 2 ^ 31.

(** [arr[i]]: [None] is [undefined]. *)
Definition index {A : Type} (arr : list A) (i : Z) : option A :=
  if i <? 0 then None else nth_error arr (Z.to_nat i).

Fixpoint lowerBoundLoop (fuel : nat) (arr : list Q) (target : Q) (lo hi : Z)
  : option Z :=
  match fuel with
  | O => None
  | S fuel' =>
      if lo <? hi then
        let mid := Z.shiftr (toInt32 (lo + hi)) 1 in
        match index arr mid with
        | None => lowerBoundLoop fuel' arr target lo hi
        | Some midValue =>
            if Qltb midValue target
            then lowerBoundLoop fuel' arr target (mid + 1) hi
            else lowerBoundLoop fuel' arr target lo mid
        end
      else Some lo
  end.

Definition lowerBound (arr : list Q) (target : Q) : option Z :=
  lowerBoundLoop (S (length arr)) arr target 0 (Z.of_nat (length arr)).

(** ** isRectangleValid *)

Section Validator.
Variable points : list Point.
Variable verticalEdges : list VerticalEdge.
Variable horizontalEdges : list HorizontalEdge.

Definition isCovered (minX maxX : Z) (coverage : list Range) : bool :=
  existsb (fun r => (rstart r <=? minX) && (rend r >=? maxX)) coverage.

(** The [for] loop of [isRectangleValid], on the samples from [startIdx] on. *)
Fixpoint validLoop (minX maxX maxY : Z) (rows : list Q) (st : Store)
  : bool * Store :=
  match rows with
  | [] => (true, st)
  | s :: rows' =>
      if Qle_bool s (inject_Z maxY) then
        let '(coverage, st') :=
          getCoverageAtY points verticalEdges horizontalEdges s st in
        if isCovered minX maxX (deref st' coverage)
        then validLoop minX maxX maxY rows' st'
        else (false, st')
      else (true, st)
  end.

Definition isRectangleValid (p1 p2 : Point) (ySamples : list Q) (st : Store)
  : option (bool * Store) :=
  let minX := Z.min (px p1) (px p2) in
  let maxX := Z.max (px p1) (px p2) in
  let minY := Z.min (py p1) (py p2) in
  let maxY := Z.max (py p1) (py p2) in
  match lowerBound ySamples (inject_Z minY) with
  | None => None
  | Some startIdx =>
      Some (validLoop minX maxX maxY (skipn (Z.to_nat startIdx) ySamples) st)
  end.
End Validator.

(** ** part2 *)

(** [(points[i], points[(i + 1) % n])] for [i = 0 .. n - 1]. *)
Definition edgePairs (points : list Point) : list (Point * Point) :=
  combine points (tl points ++ firstn 1 points).

Fixpoint buildEdges (ps : list (Point * Point))
  : list HorizontalEdge * list VerticalEdge :=
  match ps with
  | [] => ([], [])
  | (p1, p2) :: ps' =>
      let '(hs, vs) := buildEdges ps' in
      if py p1 =? py p2
      then (mkHEdge (py p1) (Z.min (px p1) (px p2)) (Z.max (px p1) (px p2)) :: hs, vs)
      else (hs, mkVEdge (px p1) (Z.min (py p1) (py p2)) (Z.max (py p1) (py p2)) :: vs)
  end.

(** [Array.from(new Set(arr))]: first occurrences, in insertion order. *)
Fixpoint setAdd (seen : list Z) (arr : list Z) : list Z :=
  match arr with
  | [] => []
  | a :: arr' =>
      if existsb (Z.eqb a) seen then setAdd seen arr'
      else a :: setAdd (a :: seen) arr'
  end.

Definition uniqueYs (points : list Point) : list Z :=
  sortBy (fun a => a) (setAdd [] (map py points)).

Definition midpoint (y nextY : Z) : Q := (inject_Z y + inject_Z nextY) / 2.

Fixpoint buildSamples (uniqueY : list Z) : list Q :=
  match uniqueY with
  | [] => []
  | y :: rest =>
      inject_Z y ::
      match rest with
      | nextY :: _ => midpoint y nextY :: buildSamples rest
      | [] => buildSamples rest
      end
  end.

Definition ySamplesOf (points : list Point) : list Q :=
  buildSamples (uniqueYs points).

(** The pair loop of [part2]; the accumulator is [maxArea] and the store. *)
Fixpoint searchLoop (points : list Point) (vs : list VerticalEdge)
    (hs : list HorizontalEdge) (ySamples : list Q)
    (ps : list (Point * Point)) (maxArea : Z) (st : Store)
  : option (Z * Store) :=
  match ps with
  | [] => Some (maxArea, st)
  | (p1, p2) :: ps' =>
      match isRectangleValid points vs hs p1 p2 ySamples st with
      | None => None
      | Some (true, st') =>
          let a := area p1 p2 in
          searchLoop points vs hs ySamples ps'
                     (if a >? maxArea then a else maxArea) st'
      | Some (false, st') =>
          searchLoop points vs hs ySamples ps' maxArea st'
      end
  end.

Definition part2State (points : list Point) : option (Z * Store) :=
  let '(horizontalEdges, verticalEdges) := buildEdges (edgePairs points) in
  searchLoop points verticalEdges horizontalEdges (ySamplesOf points)
             (pairs points) 0 emptyStore.

Definition part2 (points : list Point) : option Z :=
  option_map fst (part2State points).

(** ** The polygons of the specification's scenarios *)

Definition examplePolygon : list Point :=
  [ mkPoint 7 1; mkPoint 11 1; mkPoint 11 7; mkPoint 9 7;
    mkPoint 9 5; mkPoint 2 5; mkPoint 2 3; mkPoint 7 3 ].

Definition squarePolygon : list Point :=
  [ mkPoint 0 0; mkPoint 10 0; mkPoint 10 10; mkPoint 0 10 ].

(** ** Specification-side notions *)

Definition byStart (a b : Range) : Prop := rstart a <= rstart b.

(** Consecutive ranges leave a gap: the earlier one ends before the later
    one starts. *)
Definition apart (a b : Range) : Prop := rend a < rstart b.


(** The union of the closed real intervals of a range list. *)
Definition covers (l : list Range) (t : R) : Prop :=
  exists r, In r l /\ (IZR (rstart r) <= t <= IZR (rend r))%R.

(** The merge loop seen from its last element: [cur] is
    [merged[merged.length - 1]] and the ranges before it are final. *)
Fixpoint mergeFrom (cur : Range) (l : list Range) : list Range :=
  match l with
  | [] => [cur]
  | r :: l' =>
      if rend cur <? rstart r
      then cur :: mergeFrom r l'
      else mergeFrom (mkRange (rstart cur) (Z.max (rend cur) (rend r))) l'
  end.

(** Every cache entry points at the array that a cache miss computes for
    its key. *)
Definition cacheOk (points : list Point) (verticalEdges : list VerticalEdge)
    (horizontalEdges : list HorizontalEdge) (st : Store) : Prop :=
  Forall (fun e : Q * ArrayRef =>
            nth_error (arrays st) (snd e) =
            Some (computeCoverage points verticalEdges horizontalEdges (fst e)))
         (coverageCache st).

(** A sequence of coverage queries, one after the other on the same store. *)
Definition runQueries (points : list Point) (verticalEdges : list VerticalEdge)
    (horizontalEdges : list HorizontalEdge) (ys : list Q) (st : Store) : Store :=
  fold_left
    (fun st y => snd (getCoverageAtY points verticalEdges horizontalEdges y st))
    ys st.

(** [st'] extends [st]: entries and arrays are only added at the end, and
    every key of [st] still maps to the array it mapped to. *)
Definition appendOnly (st st' : Store) : Prop :=
  (exists more, coverageCache st' = coverageCache st ++ more) /\
  (exists more, arrays st' = arrays st ++ more) /\
  (forall k r, mapGet k (coverageCache st) = Some r ->
               mapGet k (coverageCache st') = Some r).



Definition horizontalEdgesOf (points : list Point) : list HorizontalEdge :=
  fst (buildEdges (edgePairs points)).

Definition verticalEdgesOf (points : list Point) : list VerticalEdge :=
  snd (buildEdges (edgePairs points)).

(** Some single range of the coverage computed for row [s] contains
    [[minX, maxX]]. *)
Definition coveredAt (points : list Point) (verticalEdges : list VerticalEdge)
    (horizontalEdges : list HorizontalEdge) (minX maxX : Z) (s : Q) : Prop :=
  exists r, In r (computeCoverage points verticalEdges horizontalEdges s) /\
            rstart r <= minX /\ rend r >= maxX.

(** Below [lo] every element is smaller than the target, from [hi] on none is. *)
Definition bracket (arr : list Q) (target : Q) (lo hi : Z) : Prop :=
  (forall j v, j < lo -> index arr j = Some v -> (v < target)%Q) /\
  (forall j v, hi <= j -> index arr j = Some v -> (target <= v)%Q).

(** [y] is the y-coordinate of some polygon vertex. *)
Definition isVertexY (points : list Point) (y : Z) : Prop :=
  exists p, In p points /\ py p = y.

(** [y1 < y2] are vertex y-values with no vertex y-value strictly between. *)
Definition adjacentYs (points : list Point) (y1 y2 : Z) : Prop :=
  isVertexY points y1 /\ isVertexY points y2 /\ y1 < y2 /\
  forall y, isVertexY points y -> ~ (y1 < y < y2).

(** [y1] is immediately followed by [y2] in [l]. *)
Fixpoint consecutive (l : list Z) (y1 y2 : Z) : Prop :=
  match l with
  | a :: (b :: _) as rest => (a = y1 /\ b = y2) \/ consecutive rest y1 y2
  | _ => False
  end.

(** The rectangle spanned by [p1] and [p2] is covered on every sample row
    between its lowest and its highest y. *)
Definition rectCovered (points : list Point) (verticalEdges : list VerticalEdge)
    (horizontalEdges : list HorizontalEdge) (ySamples : list Q)
    (p1 p2 : Point) : Prop :=
  forall s, In s ySamples ->
    (inject_Z (Z.min (py p1) (py p2)) <= s)%Q /\
    (s <= inject_Z (Z.max (py p1) (py p2)))%Q ->
    coveredAt points verticalEdges horizontalEdges
              (Z.min (px p1) (px p2)) (Z.max (px p1) (px p2)) s.

(** The four corners of an axis-aligned rectangle in polygon order, starting
    at the corner [(a, b)] with a horizontal edge, or with a vertical one. *)
Definition rectangleH (a b c d : Z) : list Point :=
  [ mkPoint a b; mkPoint c b; mkPoint c d; mkPoint a d ].

Definition rectangleV (a b c d : Z) : list Point :=
  [ mkPoint a b; mkPoint a d; mkPoint c d; mkPoint c b ].

(** The element just before [lo], if any, is below the target, and the
    element at [hi], if any, is not. *)
Definition edge (arr : list Q) (target : Q) (lo hi : Z) : Prop :=
  (forall v, index arr (lo - 1) = Some v -> (v < target)%Q) /\
  (forall v, index arr hi = Some v -> (target <= v)%Q).

(** The cache holds exactly the rows [keys], in insertion order: the i-th
    entry maps the i-th key to the i-th allocated array, which holds the
    coverage computed for that key, and no two keys are equal numbers. *)
Definition cacheTight (points : list Point) (verticalEdges : list VerticalEdge)
    (horizontalEdges : list HorizontalEdge) (keys : list Q) (st : Store) : Prop :=
  coverageCache st = combine keys (seq 0 (length keys)) /\
  arrays st = map (computeCoverage points verticalEdges horizontalEdges) keys /\
  (forall i j a b,
      nth_error keys i = Some a -> nth_error keys j = Some b ->
      (a == b)%Q -> i = j).

(** [ranges] is the even-odd interior of the row [y]: the [x] of the
    vertical edges with [y1 < y < y2], sorted ascending and paired up as
    [(x[0], x[1]), (x[2], x[3]), ...], an unpaired last [x] being dropped. *)
Definition interiorRangesAt (y : Q) (verticalEdges : list VerticalEdge)
    (ranges : list Range) : Prop :=
  exists (strictlyInside : VerticalEdge -> bool) (xs : list Z),
    (forall e, strictlyInside e = true <->
               (inject_Z (vy1 e) < y /\ y < inject_Z (vy2 e))%Q) /\
    Permutation xs (map vx (filter strictlyInside verticalEdges)) /\
    StronglySorted Z.le xs /\
    length ranges = Nat.div2 (length xs) /\
    (forall i, (2 * i + 1 < length xs)%nat ->
               nth_error ranges i =
               Some (mkRange (nth (2 * i) xs 0) (nth (2 * i + 1) xs 0))).

(** While checking the box of [p1] and [p2], the validator asks for the
    coverage of the sample row [s]: the row lies in the box's y-span and
    every earlier row of the span is covered. *)
Definition rowQueried (points : list Point) (verticalEdges : list VerticalEdge)
    (horizontalEdges : list HorizontalEdge) (ySamples : list Q)
    (p1 p2 : Point) (s : Q) : Prop :=
  In s ySamples /\
  (inject_Z (Z.min (py p1) (py p2)) <= s)%Q /\
  (s <= inject_Z (Z.max (py p1) (py p2)))%Q /\
  forall s', In s' ySamples ->
             (inject_Z (Z.min (py p1) (py p2)) <= s')%Q -> (s' < s)%Q ->
             coveredAt points verticalEdges horizontalEdges
                       (Z.min (px p1) (px p2)) (Z.max (px p1) (px p2)) s'.

(** A point list whose boundary runs twice along the segment [x = 2]. *)
Definition doubledEdgePolygon : list Point :=
  [ mkPoint 0 0; mkPoint 2 0; mkPoint 2 4; mkPoint 4 4;
    mkPoint 4 0; mkPoint 2 0; mkPoint 2 4; mkPoint 0 4 ].

(** * Properties *)

(** ** Number comparisons *)

Lemma Qltb_lt (a b : Q) : Qltb a b = true <-> (a < b)%Q.
Proof.
  unfold Qltb. rewrite negb_true_iff.
  split; intro H.
  - apply Qnot_le_lt. intro Hle. apply Qle_bool_iff in Hle. congruence.
  - destruct (Qle_bool b a) eqn:E; [|reflexivity].
    apply Qle_bool_iff in E. exfalso. exact (Qlt_not_le _ _ H E).
Qed.

Lemma Qle_bool_Qeq (a a' b b' : Q) :
  (a == a')%Q -> (b == b')%Q -> Qle_bool a b = Qle_bool a' b'.
Proof.
  intros Ha Hb.
  destruct (Qle_bool a b) eqn:E1, (Qle_bool a' b') eqn:E2; try reflexivity.
  - apply Qle_bool_iff in E1. rewrite Ha, Hb in E1.
    apply Qle_bool_iff in E1. congruence.
  - apply Qle_bool_iff in E2. rewrite <- Ha, <- Hb in E2.
    apply Qle_bool_iff in E2. congruence.
Qed.

Lemma Qltb_Qeq (a a' b b' : Q) :
  (a == a')%Q -> (b == b')%Q -> Qltb a b = Qltb a' b'.
Proof. intros Ha Hb. unfold Qltb. f_equal. now apply Qle_bool_Qeq. Qed.

Lemma Qeq_bool_Qeq (a b b' : Q) :
  (b == b')%Q -> Qeq_bool a b = Qeq_bool a b'.
Proof.
  intro Hb.
  destruct (Qeq_bool a b) eqn:E1, (Qeq_bool a b') eqn:E2; try reflexivity.
  - apply Qeq_bool_iff in E1. rewrite Hb in E1.
    apply Qeq_bool_iff in E1. congruence.
  - apply Qeq_bool_iff in E2. rewrite <- Hb in E2.
    apply Qeq_bool_iff in E2. congruence.
Qed.

(** ** The stable sort *)

Section SortFacts.
Context {A : Type} (key : A -> Z).

Let le_key (a b : A) : Prop := key a <= key b.

Lemma insertBy_perm (a : A) (l : list A) :
  Permutation (insertBy key a l) (a :: l).
Proof.
  induction l as [|b l IH]; simpl.
  - apply Permutation_refl.
  - destruct (key a <=? key b).
    + apply Permutation_refl.
    + eapply perm_trans; [apply perm_skip, IH | apply perm_swap].
Qed.

Lemma sortBy_perm (l : list A) : Permutation (sortBy key l) l.
Proof.
  induction l as [|a l IH]; simpl.
  - constructor.
  - eapply perm_trans; [apply insertBy_perm | now apply perm_skip].
Qed.

Lemma insertBy_sorted (a : A) (l : list A) :
  StronglySorted le_key l -> StronglySorted le_key (insertBy key a l).
Proof.
  induction 1 as [|b l Hs IH Hb]; simpl.
  - repeat constructor.
  - destruct (Z.leb_spec (key a) (key b)) as [Hle|Hgt].
    + constructor; [now constructor|].
      constructor; [exact Hle|].
      eapply Forall_impl; [|exact Hb].
      unfold le_key. intros c Hc. lia.
    + constructor; [exact IH|].
      eapply Permutation_Forall;
        [apply Permutation_sym, insertBy_perm|].
      constructor; [unfold le_key; lia | exact Hb].
Qed.

Lemma sortBy_sorted (l : list A) : StronglySorted le_key (sortBy key l).
Proof.
  induction l as [|a l IH]; simpl.
  - constructor.
  - now apply insertBy_sorted.
Qed.

Lemma sortBy_In (a : A) (l : list A) : In a (sortBy key l) <-> In a l.
Proof.
  split; apply Permutation_in;
    [apply sortBy_perm | apply Permutation_sym, sortBy_perm].
Qed.

Lemma sortBy_nil (l : list A) : sortBy key l = [] -> l = [].
Proof.
  intro H. pose proof (sortBy_perm l) as HP.
  rewrite H in HP. now apply Permutation_nil.
Qed.
End SortFacts.

Lemma Sorted_weaken {A : Type} (R R' : A -> A -> Prop) (l : list A) :
  (forall a b, R a b -> R' a b) -> Sorted R l -> Sorted R' l.
Proof.
  intros Himp. induction 1 as [|a l Hs IH Hhd]; constructor; auto.
  destruct Hhd; constructor; auto.
Qed.

Lemma StronglySorted_suffix {A : Type} (R : A -> A -> Prop) (l1 l2 : list A) :
  StronglySorted R (l1 ++ l2) -> StronglySorted R l2.
Proof.
  induction l1 as [|a l1 IH]; simpl; [auto|].
  intro H. apply IH. now inversion H.
Qed.

(** ** Pairing up the crossings *)

Lemma pair_induction (P : list Z -> Prop) :
  P [] -> (forall x, P [x]) ->
  (forall x1 x2 rest, P rest -> P (x1 :: x2 :: rest)) ->
  forall xs, P xs.
Proof.
  intros H0 H1 H2.
  fix IH 1. intros [|x1 [|x2 rest]].
  - exact H0.
  - apply H1.
  - apply H2, IH.
Qed.

Lemma pairUp_length (xs : list Z) :
  length (pairUp xs) = Nat.div2 (length xs).
Proof.
  induction xs as [| x | x1 x2 rest IH] using pair_induction; simpl; auto.
Qed.

Lemma pairUp_nth (xs : list Z) (i : nat) :
  (2 * i + 1 < length xs)%nat ->
  nth_error (pairUp xs) i =
  Some (mkRange (nth (2 * i) xs 0) (nth (2 * i + 1) xs 0)).
Proof.
  revert i.
  induction xs as [| x | x1 x2 rest IH] using pair_induction;
    intros i Hi; simpl in Hi; try lia.
  destruct i as [|i].
  - reflexivity.
  - simpl pairUp. simpl nth_error. rewrite IH by lia.
    replace (2 * S i)%nat with (S (S (2 * i))) by lia.
    replace (S (S (2 * i)) + 1)%nat with (S (S (2 * i + 1))) by lia.
    reflexivity.
Qed.



(** ** mergeRanges *)

Lemma mergeStep_nil (r : Range) : mergeStep [] r = [r].
Proof. now destruct r. Qed.

Lemma mergeStep_snoc (init : list Range) (cur r : Range) :
  mergeStep (init ++ [cur]) r =
  if rend cur <? rstart r
  then init ++ [cur; r]
  else init ++ [mkRange (rstart cur) (Z.max (rend cur) (rend r))].
Proof.
  unfold mergeStep.
  rewrite length_app, Nat.add_sub. simpl length.
  rewrite nth_error_app2, Nat.sub_diag by lia. simpl.
  rewrite removelast_last, <- app_assoc.
  now destruct r.
Qed.

Lemma mergeLoop_from (l : list Range) :
  forall init cur,
    fold_left mergeStep l (init ++ [cur]) = init ++ mergeFrom cur l.
Proof.
  induction l as [|r l IH]; intros init cur; simpl.
  - reflexivity.
  - rewrite mergeStep_snoc.
    destruct (rend cur <? rstart r).
    + change (init ++ [cur; r]) with (init ++ [cur] ++ [r]).
      rewrite app_assoc, IH, <- app_assoc. reflexivity.
    + apply IH.
Qed.

Lemma mergeRanges_from (ranges : list Range) :
  mergeRanges ranges =
  match sortBy rstart ranges with
  | [] => []
  | r :: l => mergeFrom r l
  end.
Proof.
  destruct ranges as [|r0 ranges].
  - reflexivity.
  - unfold mergeRanges.
    destruct (sortBy rstart (r0 :: ranges)) as [|r l] eqn:E.
    + apply sortBy_nil in E. discriminate.
    + simpl. rewrite mergeStep_nil.
      apply (mergeLoop_from l [] r).
Qed.

Lemma mergeFrom_head (l : list Range) :
  forall cur, exists r tl,
    mergeFrom cur l = r :: tl /\ rstart r = rstart cur.
Proof.
  induction l as [|r l IH]; intro cur; simpl.
  - now exists cur, [].
  - destruct (rend cur <? rstart r).
    + now exists cur, (mergeFrom r l).
    + destruct (IH (mkRange (rstart cur) (Z.max (rend cur) (rend r))))
        as (r' & tl & E & Hs).
      now exists r', tl.
Qed.

Lemma mergeFrom_apart (l : list Range) :
  forall cur, Sorted apart (mergeFrom cur l).
Proof.
  induction l as [|r l IH]; intro cur; simpl.
  - repeat constructor.
  - destruct (Z.ltb_spec (rend cur) (rstart r)) as [Hlt|Hge].
    + constructor; [apply IH|].
      destruct (mergeFrom_head l r) as (r' & tl & E & Hs).
      rewrite E. constructor. unfold apart. lia.
    + apply IH.
Qed.

Lemma mergeFrom_byStart (l : list Range) :
  forall cur,
    StronglySorted byStart (cur :: l) -> Sorted byStart (mergeFrom cur l).
Proof.
  induction l as [|r l IH]; intros cur Hs; simpl.
  - repeat constructor.
  - inversion Hs as [|? ? Hs' Hall]; subst.
    inversion Hall as [|? ? Hcr Hall']; subst.
    destruct (rend cur <? rstart r).
    + constructor; [now apply IH|].
      destruct (mergeFrom_head l r) as (r' & tl & E & Hr).
      rewrite E. constructor. unfold byStart in *. lia.
    + apply IH. inversion Hs' as [|? ? Hs'' _]; subst.
      constructor; [exact Hs''|exact Hall'].
Qed.

Lemma covers_cons (r : Range) (l : list Range) (t : R) :
  covers (r :: l) t <->
  (IZR (rstart r) <= t <= IZR (rend r))%R \/ covers l t.
Proof.
  unfold covers. split.
  - intros (r' & [<-|Hin] & Ht); [now left|right; now exists r'].
  - intros [Ht|(r' & Hin & Ht)].
    + exists r. split; [now left|exact Ht].
    + exists r'. split; [now right|exact Ht].
Qed.

Lemma covers_app (l1 l2 : list Range) (t : R) :
  covers (l1 ++ l2) t <-> covers l1 t \/ covers l2 t.
Proof.
  unfold covers. split.
  - intros (r & Hin & Ht). apply in_app_or in Hin.
    destruct Hin; [left|right]; now exists r.
  - intros [(r & Hin & Ht)|(r & Hin & Ht)]; exists r;
      (split; [apply in_or_app; tauto | exact Ht]).
Qed.

Lemma covers_perm (l1 l2 : list Range) (t : R) :
  Permutation l1 l2 -> covers l1 t <-> covers l2 t.
Proof.
  intro HP. unfold covers.
  split; intros (r & Hin & Ht); exists r; split; auto.
  - eapply Permutation_in; eauto.
  - eapply Permutation_in; [apply Permutation_sym|]; eauto.
Qed.

(** Widening the last range to [max] neither loses nor adds a point, as
    long as the next range starts inside it. *)
Lemma widen_covers (cur r : Range) (t : R) :
  rstart cur <= rstart r -> rstart r <= rend cur ->
  (IZR (rstart cur) <= t <= IZR (Z.max (rend cur) (rend r)))%R <->
  (IZR (rstart cur) <= t <= IZR (rend cur))%R \/
  (IZR (rstart r) <= t <= IZR (rend r))%R.
Proof.
  intros H1 H2.
  apply IZR_le in H1. apply IZR_le in H2.
  destruct (Z.max_spec (rend cur) (rend r)) as [[Hlt ->]|[Hle ->]].
  - apply Z.lt_le_incl, IZR_le in Hlt. split; [|lra].
    intros [Ha Hb]. destruct (Rle_dec t (IZR (rend cur))); lra.
  - apply IZR_le in Hle. lra.
Qed.

Lemma mergeFrom_covers (l : list Range) :
  forall cur t,
    StronglySorted byStart (cur :: l) ->
    covers (mergeFrom cur l) t <-> covers (cur :: l) t.
Proof.
  induction l as [|r l IH]; intros cur t Hs; simpl.
  - reflexivity.
  - inversion Hs as [|? ? Hs' Hall]; subst.
    inversion Hall as [|? ? Hcr Hall']; subst.
    destruct (Z.ltb_spec (rend cur) (rstart r)) as [Hlt|Hge].
    + rewrite covers_cons, (IH r t Hs'), (covers_cons cur). reflexivity.
    + rewrite IH.
      * rewrite covers_cons. simpl rstart. simpl rend.
        rewrite (widen_covers cur r t Hcr Hge).
        rewrite (covers_cons cur), (covers_cons r). tauto.
      * inversion Hs' as [|? ? Hs'' _]; subst.
        constructor; [exact Hs''|exact Hall'].
Qed.

Lemma mergeRanges_apart (ranges : list Range) :
  Sorted apart (mergeRanges ranges).
Proof.
  rewrite mergeRanges_from.
  destruct (sortBy rstart ranges); [constructor|apply mergeFrom_apart].
Qed.

Lemma mergeRanges_byStart (ranges : list Range) :
  Sorted byStart (mergeRanges ranges).
Proof.
  rewrite mergeRanges_from.
  pose proof (sortBy_sorted rstart ranges) as Hs.
  destruct (sortBy rstart ranges); [constructor|].
  now apply mergeFrom_byStart.
Qed.

Lemma mergeRanges_covers (ranges : list Range) (t : R) :
  covers (mergeRanges ranges) t <-> covers ranges t.
Proof.
  rewrite mergeRanges_from.
  pose proof (sortBy_sorted rstart ranges) as Hs.
  pose proof (sortBy_perm rstart ranges) as HP.
  destruct (sortBy rstart ranges) as [|r l].
  - apply Permutation_nil in HP. subst. reflexivity.
  - rewrite (mergeFrom_covers l r t Hs). now apply covers_perm.
Qed.

(** C10: on ranges with [start <= end], the output of mergeRanges is sorted
    ascending by start, each output range ends before the next one starts,
    and the union of the output intervals, as closed real intervals, is the
    union of the input intervals. *)
Theorem mergeRanges_sorted_disjoint_same_union (ranges : list Range) :
  Forall (fun r => rstart r <= rend r) ranges ->
  Sorted byStart (mergeRanges ranges) /\
  Sorted apart (mergeRanges ranges) /\
  forall t : R, covers (mergeRanges ranges) t <-> covers ranges t.
Proof.
  intros _. split; [|split].
  - apply mergeRanges_byStart.
  - apply mergeRanges_apart.
  - intro t. apply mergeRanges_covers.
Qed.

(** ** The coverage cache *)

Lemma Qeq_bool_refl' (k : Q) : Qeq_bool k k = true.
Proof. apply Qeq_bool_iff. reflexivity. Qed.

Lemma mapGet_In (k : Q) (m : list (Q * ArrayRef)) (r : ArrayRef) :
  mapGet k m = Some r -> exists k', In (k', r) m /\ (k' == k)%Q.
Proof.
  induction m as [|[k' v] m IH]; simpl; [discriminate|].
  destruct (Qeq_bool k' k) eqn:E.
  - intros [= ->]. exists k'. split; [now left|now apply Qeq_bool_iff].
  - intro H. destruct (IH H) as (k'' & Hin & Hk). exists k''. auto.
Qed.

Lemma mapGet_app (k : Q) (m more : list (Q * ArrayRef)) (r : ArrayRef) :
  mapGet k m = Some r -> mapGet k (m ++ more) = Some r.
Proof.
  induction m as [|[k' v] m IH]; simpl; [discriminate|].
  destruct (Qeq_bool k' k); auto.
Qed.

Lemma mapSet_miss (k : Q) (v : ArrayRef) (m : list (Q * ArrayRef)) :
  mapGet k m = None -> mapSet k v m = m ++ [(k, v)].
Proof.
  induction m as [|[k' v'] m IH]; simpl; [reflexivity|].
  destruct (Qeq_bool k' k); [discriminate|].
  intro H. now rewrite IH.
Qed.

Lemma mapGet_snoc_miss (k : Q) (v : ArrayRef) (m : list (Q * ArrayRef)) :
  mapGet k m = None -> mapGet k (m ++ [(k, v)]) = Some v.
Proof.
  induction m as [|[k' v'] m IH]; simpl.
  - now rewrite Qeq_bool_refl'.
  - destruct (Qeq_bool k' k); [discriminate|exact IH].
Qed.

Section CoverageFacts.
Variable points : list Point.
Variable verticalEdges : list VerticalEdge.
Variable horizontalEdges : list HorizontalEdge.

Local Abbreviation coverageOf := (computeCoverage points verticalEdges horizontalEdges).
Local Abbreviation query := (getCoverageAtY points verticalEdges horizontalEdges).

Lemma crosses_spec (y : Q) (e : VerticalEdge) :
  crosses y e = true <->
  (inject_Z (vy1 e) < y /\ y < inject_Z (vy2 e))%Q.
Proof.
  unfold crosses. now rewrite andb_true_iff, !Qltb_lt.
Qed.

Lemma getInteriorAtY_Qeq (y y' : Q) :
  (y == y')%Q ->
  getInteriorAtY y verticalEdges = getInteriorAtY y' verticalEdges.
Proof.
  intro Hy. unfold getInteriorAtY, crossingXs.
  do 3 f_equal. apply filter_ext. intro e. unfold crosses.
  f_equal; apply Qltb_Qeq; auto; reflexivity.
Qed.

Lemma isAtVertex_Qeq (y y' : Q) :
  (y == y')%Q -> isAtVertex points y = isAtVertex points y'.
Proof.
  intro Hy. unfold isAtVertex.
  induction points as [|p ps IH]; simpl; [reflexivity|].
  now rewrite IH, (Qeq_bool_Qeq _ y y').
Qed.

Lemma isAtVertex_spec (y : Q) :
  isAtVertex points y = true <->
  exists p, In p points /\ (inject_Z (py p) == y)%Q.
Proof.
  unfold isAtVertex. rewrite existsb_exists.
  split; intros (p & Hin & Hp); exists p; split; auto;
    now apply Qeq_bool_iff.
Qed.

Lemma horizontalSpans_Qeq (y y' : Q) :
  (y == y')%Q -> horizontalSpans horizontalEdges y = horizontalSpans horizontalEdges y'.
Proof.
  intro Hy. unfold horizontalSpans. f_equal.
  apply filter_ext. intro e. now apply Qeq_bool_Qeq.
Qed.

Lemma computeCoverage_Qeq (y y' : Q) :
  (y == y')%Q -> coverageOf y = coverageOf y'.
Proof.
  intro Hy. unfold computeCoverage.
  rewrite (isAtVertex_Qeq y y' Hy), (horizontalSpans_Qeq y y' Hy).
  rewrite (getInteriorAtY_Qeq y y' Hy).
  rewrite (getInteriorAtY_Qeq (y + eps) (y' + eps)) by now rewrite Hy.
  rewrite (getInteriorAtY_Qeq (y - eps) (y' - eps)) by now rewrite Hy.
  reflexivity.
Qed.

Lemma query_hit (y : Q) (st : Store) (r : ArrayRef) :
  mapGet y (coverageCache st) = Some r -> query y st = (r, st).
Proof. intro H. unfold getCoverageAtY. now rewrite H. Qed.

Lemma query_miss (y : Q) (st : Store) :
  mapGet y (coverageCache st) = None ->
  query y st =
  (length (arrays st),
   mkStore (arrays st ++ [coverageOf y]) (coverageCache st ++ [(y, length (arrays st))])).
Proof.
  intro H. unfold getCoverageAtY. rewrite H.
  now rewrite (mapSet_miss _ _ _ H).
Qed.

Lemma cacheOk_empty : cacheOk points verticalEdges horizontalEdges emptyStore.
Proof. constructor. Qed.

Lemma cacheOk_lookup (st : Store) (y : Q) (r : ArrayRef) :
  cacheOk points verticalEdges horizontalEdges st ->
  mapGet y (coverageCache st) = Some r ->
  nth_error (arrays st) r = Some (coverageOf y).
Proof.
  intros Hok Hget.
  destruct (mapGet_In _ _ _ Hget) as (k & Hin & Hk).
  unfold cacheOk in Hok. rewrite Forall_forall in Hok.
  specialize (Hok _ Hin). simpl in Hok.
  now rewrite <- (computeCoverage_Qeq k y Hk).
Qed.

Lemma query_cacheOk (y : Q) (st : Store) :
  cacheOk points verticalEdges horizontalEdges st ->
  cacheOk points verticalEdges horizontalEdges (snd (query y st)).
Proof.
  intro Hok.
  destruct (mapGet y (coverageCache st)) as [r|] eqn:E.
  - now rewrite (query_hit _ _ _ E).
  - rewrite (query_miss _ _ E). unfold cacheOk in *. simpl.
    apply Forall_app. split.
    + eapply Forall_impl; [|exact Hok].
      intros [k r] Hk. rewrite nth_error_app1; [exact Hk|].
      apply nth_error_Some. congruence.
    + constructor; [|constructor]. simpl.
      now rewrite nth_error_app2, Nat.sub_diag by lia.
Qed.

Lemma query_result (y : Q) (st : Store) :
  cacheOk points verticalEdges horizontalEdges st ->
  deref (snd (query y st)) (fst (query y st)) = coverageOf y.
Proof.
  intro Hok. unfold deref.
  destruct (mapGet y (coverageCache st)) as [r|] eqn:E.
  - rewrite (query_hit _ _ _ E). simpl.
    apply nth_error_nth. now apply cacheOk_lookup.
  - rewrite (query_miss _ _ E). simpl.
    now rewrite app_nth2, Nat.sub_diag by lia.
Qed.

Lemma query_stored (y : Q) (st : Store) :
  mapGet y (coverageCache (snd (query y st))) = Some (fst (query y st)).
Proof.
  destruct (mapGet y (coverageCache st)) as [r|] eqn:E.
  - now rewrite (query_hit _ _ _ E).
  - rewrite (query_miss _ _ E). simpl. now apply mapGet_snoc_miss.
Qed.

Lemma appendOnly_refl (st : Store) : appendOnly st st.
Proof.
  repeat split; try (exists []; now rewrite app_nil_r). auto.
Qed.

Lemma appendOnly_trans (st1 st2 st3 : Store) :
  appendOnly st1 st2 -> appendOnly st2 st3 -> appendOnly st1 st3.
Proof.
  intros ([c1 Hc1] & [a1 Ha1] & Hk1) ([c2 Hc2] & [a2 Ha2] & Hk2).
  repeat split.
  - exists (c1 ++ c2). now rewrite Hc2, Hc1, app_assoc.
  - exists (a1 ++ a2). now rewrite Ha2, Ha1, app_assoc.
  - auto.
Qed.

Lemma query_appendOnly (y : Q) (st : Store) :
  appendOnly st (snd (query y st)).
Proof.
  destruct (mapGet y (coverageCache st)) as [r|] eqn:E.
  - rewrite (query_hit _ _ _ E). apply appendOnly_refl.
  - rewrite (query_miss _ _ E). simpl. repeat split; simpl.
    + now exists [(y, length (arrays st))].
    + now exists [coverageOf y].
    + intros k r. apply mapGet_app.
Qed.

Lemma runQueries_appendOnly (ys : list Q) :
  forall st, appendOnly st (runQueries points verticalEdges horizontalEdges ys st).
Proof.
  induction ys as [|y ys IH]; intro st; simpl.
  - apply appendOnly_refl.
  - eapply appendOnly_trans; [apply query_appendOnly | apply IH].
Qed.

Lemma runQueries_cacheOk (ys : list Q) :
  forall st,
    cacheOk points verticalEdges horizontalEdges st ->
    cacheOk points verticalEdges horizontalEdges
            (runQueries points verticalEdges horizontalEdges ys st).
Proof.
  induction ys as [|y ys IH]; intros st Hok; simpl; auto.
  apply IH. now apply query_cacheOk.
Qed.
End CoverageFacts.

(** ** Claims about the coverage engine *)

(** C8: getCoverageAtY leaves the returned array stored under key [y] (on a
    miss it is a new array holding the computed coverage); a second query
    for [y] returns that same array reference and changes nothing; and over
    any sequence of queries the cache only grows at its end, every existing
    key keeping the array it had. *)
Theorem getCoverageAtY_cache_discipline
    (points : list Point) (verticalEdges : list VerticalEdge)
    (horizontalEdges : list HorizontalEdge) (y : Q) (st : Store) :
  let query := getCoverageAtY points verticalEdges horizontalEdges in
  let r := fst (query y st) in
  let st1 := snd (query y st) in
  (mapGet y (coverageCache st1) = Some r /\
   (mapGet y (coverageCache st) = None ->
    nth_error (arrays st) r = None /\
    nth_error (arrays st1) r =
    Some (computeCoverage points verticalEdges horizontalEdges y))) /\
  query y st1 = (r, st1) /\
  (forall ys : list Q,
      appendOnly st (runQueries points verticalEdges horizontalEdges ys st)).
Proof.
  cbv zeta. split; [split|split].
  - apply query_stored.
  - intro Hmiss. rewrite (query_miss _ _ _ _ _ Hmiss). simpl. split.
    + apply nth_error_None. lia.
    + now rewrite nth_error_app2, Nat.sub_diag by lia.
  - apply query_hit, query_stored.
  - intro ys. apply runQueries_appendOnly.
Qed.


Lemma getInteriorAtY_interior (y : Q) (verticalEdges : list VerticalEdge) :
  interiorRangesAt y verticalEdges (getInteriorAtY y verticalEdges).
Proof.
  exists (crosses y), (crossingXs y verticalEdges).
  split; [apply crosses_spec|].
  split; [apply sortBy_perm|].
  split; [apply (sortBy_sorted (fun a => a))|].
  split; [apply pairUp_length|apply pairUp_nth].
Qed.

(** C4: at a row [y] that carries a polygon vertex (of magnitude below
    [2^52], so that [y + 0.5] and [y - 0.5] are exact), the coverage is
    mergeRanges applied to three lists in this order: the even-odd interior
    ranges of the row [y + 0.5], those of the row [y - 0.5], and one range
    [x1, x2] per horizontal edge lying at exactly [y].  It is sorted, its
    ranges are pairwise apart, and it covers exactly what the three lists
    cover. *)
Theorem getCoverageAtY_at_vertex
    (points : list Point) (verticalEdges : list VerticalEdge)
    (horizontalEdges : list HorizontalEdge) (y : Q) (st : Store) :
  cacheOk points verticalEdges horizontalEdges st ->
  (exists p, In p points /\ (inject_Z (py p) == y)%Q) ->
  (inject_Z (- 2 ^ 52) < y)%Q /\ (y < inject_Z (2 ^ 52))%Q ->
  let res := getCoverageAtY points verticalEdges horizontalEdges y st in
  let coverage := deref (snd res) (fst res) in
  let flat :=
    map (fun e => mkRange (hx1 e) (hx2 e))
        (filter (fun e => Qeq_bool (inject_Z (hy e)) y) horizontalEdges) in
  exists above below : list Range,
    interiorRangesAt (y + (1 # 2)) verticalEdges above /\
    interiorRangesAt (y - (1 # 2)) verticalEdges below /\
    coverage = mergeRanges (above ++ below ++ flat) /\
    Sorted byStart coverage /\
    Sorted apart coverage /\
    (forall t : R,
        covers coverage t <-> covers above t \/ covers below t \/ covers flat t).
Proof.
  intros Hok Hv _. cbv zeta. rewrite (query_result _ _ _ _ _ Hok).
  unfold computeCoverage.
  apply isAtVertex_spec in Hv. rewrite Hv.
  exists (getInteriorAtY (y + eps) verticalEdges),
         (getInteriorAtY (y - eps) verticalEdges).
  split; [apply getInteriorAtY_interior|].
  split; [apply getInteriorAtY_interior|].
  split; [reflexivity|].
  split; [apply mergeRanges_byStart|].
  split; [apply mergeRanges_apart|].
  intro t. rewrite mergeRanges_covers, !covers_app. reflexivity.
Qed.

(** C5: at a row [y] that carries no polygon vertex, the coverage is made
    from the vertical edges alone: the [x] of the edges with [y1 < y < y2],
    sorted ascending, paired up as [(x[0],x[1]), (x[2],x[3]), ...]. *)
Theorem getCoverageAtY_off_vertex
    (points : list Point) (verticalEdges : list VerticalEdge)
    (horizontalEdges : list HorizontalEdge) (y : Q) (st : Store) :
  cacheOk points verticalEdges horizontalEdges st ->
  (forall p, In p points -> ~ (inject_Z (py p) == y)%Q) ->
  let res := getCoverageAtY points verticalEdges horizontalEdges y st in
  let coverage := deref (snd res) (fst res) in
  exists (strictlyInside : VerticalEdge -> bool) (xs : list Z),
    (forall e, strictlyInside e = true <->
               (inject_Z (vy1 e) < y /\ y < inject_Z (vy2 e))%Q) /\
    Permutation xs (map vx (filter strictlyInside verticalEdges)) /\
    StronglySorted Z.le xs /\
    length coverage = Nat.div2 (length xs) /\
    (forall i, (2 * i + 1 < length xs)%nat ->
               nth_error coverage i =
               Some (mkRange (nth (2 * i) xs 0) (nth (2 * i + 1) xs 0))).
Proof.
  intros Hok Hv. cbv zeta. rewrite (query_result _ _ _ _ _ Hok).
  unfold computeCoverage.
  destruct (isAtVertex points y) eqn:E.
  - apply isAtVertex_spec in E. destruct E as (p & Hin & Hp).
    exfalso. exact (Hv p Hin Hp).
  - exists (crosses y), (crossingXs y verticalEdges).
    split; [apply crosses_spec|].
    split; [apply sortBy_perm|].
    split; [apply (sortBy_sorted (fun a => a))|].
    split; [apply pairUp_length|apply pairUp_nth].
Qed.

(** ** lowerBound *)

Lemma toInt32_small (n : Z) : 0 <= n < 2 ^ 31 -> toInt32 n = n.
Proof.
  intro H. unfold toInt32.
  rewrite Z.mod_small; lia.
Qed.

Lemma mid_small (lo hi : Z) :
  0 <= lo -> lo < hi -> hi < 2 ^ 30 ->
  let mid := Z.shiftr (toInt32 (lo + hi)) 1 in
  lo <= mid < hi.
Proof.
  intros H0 H1 H2. cbv zeta.
  rewrite toInt32_small by lia.
  rewrite Z.shiftr_div_pow2 by lia.
  change (2 ^ 1) with 2.
  split.
  - apply Z.div_le_lower_bound; lia.
  - apply Z.div_lt_upper_bound; lia.
Qed.

Lemma index_Some {A : Type} (arr : list A) (i : Z) :
  0 <= i < Z.of_nat (length arr) -> exists v, index arr i = Some v.
Proof.
  intro H. unfold index.
  destruct (Z.ltb_spec i 0); [lia|].
  destruct (nth_error arr (Z.to_nat i)) eqn:E; [eauto|].
  apply nth_error_None in E. lia.
Qed.

Lemma index_bounds {A : Type} (arr : list A) (i : Z) (v : A) :
  index arr i = Some v -> 0 <= i < Z.of_nat (length arr).
Proof.
  unfold index. destruct (Z.ltb_spec i 0); [discriminate|].
  intro E. assert (Z.to_nat i < length arr)%nat
    by (apply nth_error_Some; congruence).
  lia.
Qed.

Lemma sorted_nth_error (l : list Q) :
  StronglySorted Qle l ->
  forall i j a b,
    (i <= j)%nat -> nth_error l i = Some a -> nth_error l j = Some b ->
    (a <= b)%Q.
Proof.
  induction 1 as [|x l Hs IH Hx]; intros i j a b Hij Ha Hb.
  - destruct i; discriminate.
  - destruct i as [|i], j as [|j]; simpl in *; try lia.
    + injection Ha as <-. injection Hb as <-. apply Qle_refl.
    + injection Ha as <-. rewrite Forall_forall in Hx.
      apply Hx. eapply nth_error_In; eauto.
    + apply (IH i j a b); [lia | exact Ha | exact Hb].
Qed.

Lemma sorted_index (arr : list Q) :
  StronglySorted Qle arr ->
  forall i j a b,
    i <= j -> index arr i = Some a -> index arr j = Some b -> (a <= b)%Q.
Proof.
  intros Hs i j a b Hij Ha Hb.
  pose proof (index_bounds _ _ _ Ha). pose proof (index_bounds _ _ _ Hb).
  unfold index in *.
  destruct (Z.ltb_spec i 0); [lia|]. destruct (Z.ltb_spec j 0); [lia|].
  apply (sorted_nth_error arr Hs (Z.to_nat i) (Z.to_nat j) a b);
    [lia | exact Ha | exact Hb].
Qed.

Section LowerBound.
Variable arr : list Q.
Variable target : Q.
Hypothesis arr_short : Z.of_nat (length arr) < 2 ^ 30.

Local Abbreviation bracket := (bracket arr target).

Lemma lowerBoundLoop_terminates (fuel : nat) :
  forall lo hi,
    0 <= lo -> hi <= Z.of_nat (length arr) ->
    (Z.to_nat (hi - lo) < fuel)%nat ->
    exists i, lowerBoundLoop fuel arr target lo hi = Some i /\
              lo <= i /\ (lo <= hi -> i <= hi).
Proof.
  induction fuel as [|fuel IH]; intros lo hi Hlo Hhi Hfuel; [lia|].
  simpl. destruct (Z.ltb_spec lo hi) as [Hlt|Hge].
  - pose proof (mid_small lo hi Hlo Hlt ltac:(lia)) as Hmid.
    cbv zeta in Hmid.
    destruct (index_Some arr (Z.shiftr (toInt32 (lo + hi)) 1) ltac:(lia))
      as [v ->].
    destruct (Qltb v target).
    + destruct (IH (Z.shiftr (toInt32 (lo + hi)) 1 + 1) hi) as (i & E & H1 & H2);
        try lia.
      exists i. repeat split; auto; lia.
    + destruct (IH lo (Z.shiftr (toInt32 (lo + hi)) 1)) as (i & E & H1 & H2);
        try lia.
      exists i. repeat split; auto; lia.
  - exists lo. repeat split; auto; lia.
Qed.

Lemma lowerBoundLoop_bracket (fuel : nat) :
  StronglySorted Qle arr ->
  forall lo hi i,
    0 <= lo -> lo <= hi -> hi <= Z.of_nat (length arr) ->
    bracket lo hi ->
    lowerBoundLoop fuel arr target lo hi = Some i ->
    bracket i i.
Proof.
  intro Hs.
  induction fuel as [|fuel IH]; intros lo hi i Hlo Hle Hhi Hbr; [discriminate|].
  simpl. destruct (Z.ltb_spec lo hi) as [Hlt|Hge].
  - pose proof (mid_small lo hi Hlo Hlt ltac:(lia)) as Hmid.
    cbv zeta in Hmid.
    destruct (index_Some arr (Z.shiftr (toInt32 (lo + hi)) 1) ltac:(lia))
      as [v Ev].
    rewrite Ev. destruct Hbr as [Hbelow Habove].
    destruct (Qltb v target) eqn:Ecmp.
    + apply Qltb_lt in Ecmp. apply IH; try lia.
      split; [|exact Habove].
      intros j w Hj Ew.
      eapply Qle_lt_trans; [|exact Ecmp].
      eapply (sorted_index arr Hs j); eauto. lia.
    + assert (Hge : (target <= v)%Q).
      { apply Qnot_lt_le. intro Hc. apply Qltb_lt in Hc. congruence. }
      apply IH; try lia.
      split; [exact Hbelow|].
      intros j w Hj Ew.
      eapply Qle_trans; [exact Hge|].
      eapply (sorted_index arr Hs _ j); eauto.
  - intros [= <-]. assert (lo = hi) by lia. subst hi. exact Hbr.
Qed.

Lemma lowerBound_spec :
  StronglySorted Qle arr ->
  exists i, lowerBound arr target = Some i /\
            0 <= i <= Z.of_nat (length arr) /\ bracket i i.
Proof.
  intro Hs. unfold lowerBound.
  destruct (lowerBoundLoop_terminates (S (length arr)) 0 (Z.of_nat (length arr)))
    as (i & E & H1 & H2); try lia.
  exists i. split; [exact E|]. split; [lia|].
  apply (lowerBoundLoop_bracket (S (length arr)) Hs 0 (Z.of_nat (length arr)) i);
    [lia | lia | lia | | exact E].
  split; intros j v Hj Ev; apply index_bounds in Ev; lia.
Qed.

Lemma lowerBound_total :
  exists i, lowerBound arr target = Some i /\
            0 <= i <= Z.of_nat (length arr).
Proof.
  unfold lowerBound.
  destruct (lowerBoundLoop_terminates (S (length arr)) 0 (Z.of_nat (length arr)))
    as (i & E & H1 & H2); try lia.
  exists i. split; [exact E|lia].
Qed.
End LowerBound.

(** ** isRectangleValid *)

Lemma isCovered_spec (minX maxX : Z) (coverage : list Range) :
  isCovered minX maxX coverage = true <->
  exists r, In r coverage /\ rstart r <= minX /\ rend r >= maxX.
Proof.
  unfold isCovered. rewrite existsb_exists.
  split; intros (r & Hin & H); exists r; split; auto.
  - apply andb_true_iff in H. destruct H as [H1 H2].
    apply Z.leb_le in H1. apply Z.geb_le in H2. lia.
  - apply andb_true_iff. split; [apply Z.leb_le|apply Z.geb_le]; lia.
Qed.

Lemma In_skipn_index {A : Type} (l : list A) (n : nat) (a : A) :
  In a (skipn n l) <-> exists j, (n <= j)%nat /\ nth_error l j = Some a.
Proof.
  split.
  - intro Hin. apply In_nth_error in Hin. destruct Hin as [k Hk].
    exists (n + k)%nat. split; [lia|].
    now rewrite <- nth_error_skipn.
  - intros (j & Hj & E).
    apply nth_error_In with (n := (j - n)%nat).
    rewrite nth_error_skipn. now replace (n + (j - n))%nat with j by lia.
Qed.

Section ValidatorFacts.
Variable points : list Point.
Variable verticalEdges : list VerticalEdge.
Variable horizontalEdges : list HorizontalEdge.
Variables minX maxX maxY : Z.

Local Abbreviation ok := (cacheOk points verticalEdges horizontalEdges).
Local Abbreviation run := (runQueries points verticalEdges horizontalEdges).
Local Abbreviation covered :=
  (coveredAt points verticalEdges horizontalEdges minX maxX).
Local Abbreviation loop :=
  (validLoop points verticalEdges horizontalEdges minX maxX maxY).

(** What the loop did: the rows it visited and where it stopped. *)
Lemma validLoop_trace (rows : list Q) :
  forall st, ok st ->
    exists visited rest,
      rows = visited ++ rest /\
      Forall (fun s => (s <= inject_Z maxY)%Q /\ covered s) visited /\
      if fst (loop rows st)
      then match rest with
           | [] => True
           | s :: _ => ~ (s <= inject_Z maxY)%Q
           end /\ snd (loop rows st) = run visited st
      else exists s rest',
          rest = s :: rest' /\ (s <= inject_Z maxY)%Q /\ ~ covered s /\
          snd (loop rows st) = run (visited ++ [s]) st.
Proof.
  induction rows as [|s rows IH]; intros st Hok; simpl.
  - exists [], []. repeat split; auto.
  - destruct (Qle_bool s (inject_Z maxY)) eqn:Ele.
    + apply Qle_bool_iff in Ele.
      pose proof (query_result points verticalEdges horizontalEdges s st Hok)
        as Hres.
      pose proof (query_cacheOk points verticalEdges horizontalEdges s st Hok)
        as Hok'.
      destruct (getCoverageAtY points verticalEdges horizontalEdges s st)
        as [coverage st'] eqn:Eq.
      simpl in Hres, Hok'. rewrite Hres.
      destruct (isCovered minX maxX
                  (computeCoverage points verticalEdges horizontalEdges s))
        eqn:Ecov.
      * apply isCovered_spec in Ecov.
        destruct (IH st' Hok') as (visited & rest & -> & Hall & Hend).
        exists (s :: visited), rest. split; [reflexivity|].
        split; [constructor; auto|].
        simpl. rewrite Eq. simpl. exact Hend.
      * exists [], (s :: rows). split; [reflexivity|]. split; [constructor|].
        simpl. exists s, rows. repeat split; auto.
        -- intro Hc. apply isCovered_spec in Hc. congruence.
        -- now rewrite Eq.
    + exists [], (s :: rows). repeat split; auto.
      simpl. intro Hc. apply Qle_bool_iff in Hc. congruence.
Qed.

Lemma validLoop_cacheOk (rows : list Q) :
  forall st, ok st -> ok (snd (loop rows st)).
Proof.
  intros st Hok.
  destruct (validLoop_trace rows st Hok) as (visited & rest & _ & _ & H).
  destruct (fst (loop rows st)).
  - destruct H as [_ ->]. now apply runQueries_cacheOk.
  - destruct H as (s & rest' & _ & _ & _ & ->). now apply runQueries_cacheOk.
Qed.

Lemma validLoop_sorted (rows : list Q) (st : Store) :
  ok st -> StronglySorted Qle rows ->
  fst (loop rows st) = true <->
  forall s, In s rows -> (s <= inject_Z maxY)%Q -> covered s.
Proof.
  intros Hok Hs.
  destruct (validLoop_trace rows st Hok) as (visited & rest & -> & Hall & H).
  rewrite Forall_forall in Hall.
  destruct (fst (loop (visited ++ rest) st)).
  - split; [intros _|reflexivity].
    intros s Hin Hle. apply in_app_or in Hin. destruct Hin as [Hin|Hin].
    + now apply Hall.
    + destruct H as [H _]. destruct rest as [|h rest]; [contradiction|].
      exfalso. apply H.
      destruct Hin as [->|Hin]; [exact Hle|].
      apply StronglySorted_suffix in Hs.
      inversion Hs as [|? ? _ Hh]; subst.
      rewrite Forall_forall in Hh.
      eapply Qle_trans; [apply Hh, Hin|exact Hle].
  - split; [discriminate|]. intro Hcov. exfalso.
    destruct H as (s & rest' & -> & Hle & Hnot & _).
    apply Hnot, Hcov; [|exact Hle].
    apply in_or_app. right. now left.
Qed.
End ValidatorFacts.

(** The run of isRectangleValid from a coherent cache. *)
Lemma isRectangleValid_run
    (points : list Point) (verticalEdges : list VerticalEdge)
    (horizontalEdges : list HorizontalEdge)
    (p1 p2 : Point) (ySamples : list Q) (st : Store) :
  Sorted Qle ySamples ->
  Z.of_nat (length ySamples) < 2 ^ 30 ->
  cacheOk points verticalEdges horizontalEdges st ->
  let minX := Z.min (px p1) (px p2) in
  let maxX := Z.max (px p1) (px p2) in
  let minY := Z.min (py p1) (py p2) in
  let maxY := Z.max (py p1) (py p2) in
  let covered := coveredAt points verticalEdges horizontalEdges minX maxX in
  exists (startIdx : Z) (valid : bool) (st' : Store),
    isRectangleValid points verticalEdges horizontalEdges p1 p2 ySamples st
    = Some (valid, st') /\
    cacheOk points verticalEdges horizontalEdges st' /\
    lowerBound ySamples (inject_Z minY) = Some startIdx /\
    0 <= startIdx <= Z.of_nat (length ySamples) /\
    (forall j s, index ySamples j = Some s ->
                 (inject_Z minY <= s)%Q <-> startIdx <= j) /\
    (valid = true <->
     forall s, In s ySamples ->
               (inject_Z minY <= s)%Q /\ (s <= inject_Z maxY)%Q ->
               covered s) /\
    (valid = false ->
     exists passed s rest,
       skipn (Z.to_nat startIdx) ySamples = passed ++ s :: rest /\
       Forall (fun q => (q <= inject_Z maxY)%Q /\ covered q) passed /\
       (s <= inject_Z maxY)%Q /\ ~ covered s /\
       st' = runQueries points verticalEdges horizontalEdges (passed ++ [s]) st).
Proof.
  intros Hsorted Hshort Hok. cbv zeta.
  set (minX := Z.min (px p1) (px p2)). set (maxX := Z.max (px p1) (px p2)).
  set (minY := Z.min (py p1) (py p2)). set (maxY := Z.max (py p1) (py p2)).
  assert (Hs : StronglySorted Qle ySamples)
    by (apply Sorted_StronglySorted; [exact Qle_trans | exact Hsorted]).
  destruct (lowerBound_spec ySamples (inject_Z minY) Hshort Hs)
    as (startIdx & Elb & Hrange & Hbelow & Habove).
  set (rows := skipn (Z.to_nat startIdx) ySamples).
  assert (Hrows : StronglySorted Qle rows).
  { apply (StronglySorted_suffix Qle (firstn (Z.to_nat startIdx) ySamples)).
    unfold rows. now rewrite firstn_skipn. }
  assert (Hfirst : forall j s, index ySamples j = Some s ->
                     (inject_Z minY <= s)%Q <-> startIdx <= j).
  { intros j s Ej. split.
    - intro Hle. destruct (Z.lt_ge_cases j startIdx) as [Hlt|Hge]; [|exact Hge].
      exfalso. exact (Qlt_not_le _ _ (Hbelow j s Hlt Ej) Hle).
    - intro Hge. exact (Habove j s Hge Ej). }
  assert (Hin : forall s, In s rows <->
                  In s ySamples /\ (inject_Z minY <= s)%Q).
  { intro s. unfold rows. rewrite In_skipn_index. split.
    - intros (j & Hj & Ej). split; [eapply nth_error_In; eauto|].
      apply (Hfirst (Z.of_nat j) s); [|lia].
      unfold index. destruct (Z.ltb_spec (Z.of_nat j) 0); [lia|].
      now rewrite Nat2Z.id.
    - intros [Hs' Hle]. apply In_nth_error in Hs'. destruct Hs' as [j Ej].
      exists j. split; [|exact Ej].
      assert (Ei : index ySamples (Z.of_nat j) = Some s).
      { unfold index. destruct (Z.ltb_spec (Z.of_nat j) 0); [lia|].
        now rewrite Nat2Z.id. }
      apply (Hfirst _ _ Ei) in Hle. lia. }
  exists startIdx,
    (fst (validLoop points verticalEdges horizontalEdges minX maxX maxY rows st)),
    (snd (validLoop points verticalEdges horizontalEdges minX maxX maxY rows st)).
  split; [|split; [now apply validLoop_cacheOk|
            split; [exact Elb|split; [exact Hrange|split; [exact Hfirst|split]]]]].
  - unfold isRectangleValid. fold minX maxX minY maxY. rewrite Elb.
    fold rows. now rewrite <- surjective_pairing.
  - rewrite (validLoop_sorted _ _ _ _ _ _ rows st Hok Hrows).
    split.
    + intros H s Hs' [Hlo Hhi]. apply H; [apply Hin; auto|exact Hhi].
    + intros H s Hs' Hhi. apply Hin in Hs'. destruct Hs' as [Hs' Hlo].
      apply H; auto.
  - intro Efalse.
    destruct (validLoop_trace points verticalEdges horizontalEdges
                minX maxX maxY rows st Hok)
      as (visited & rest & Erows & Hall & Hend).
    rewrite Efalse in Hend.
    destruct Hend as (s & rest' & -> & Hle & Hnot & Est).
    exists visited, s, rest'. repeat split; auto.
Qed.

(** C3: on a sorted sample array, isRectangleValid answers true exactly when
    every sample between [minY] and [maxY] has a coverage set with a single
    range containing [[minX, maxX]].  The scan starts at the index returned
    by lowerBound, which is the first sample not below [minY]; when the
    answer is false the scan stopped at the first failing row: the only
    coverage queries made are those of the rows up to and including it. *)
Theorem isRectangleValid_spec
    (points : list Point) (verticalEdges : list VerticalEdge)
    (horizontalEdges : list HorizontalEdge)
    (p1 p2 : Point) (ySamples : list Q) (st : Store) :
  Sorted Qle ySamples ->
  Z.of_nat (length ySamples) < 2 ^ 30 ->
  cacheOk points verticalEdges horizontalEdges st ->
  let minX := Z.min (px p1) (px p2) in
  let maxX := Z.max (px p1) (px p2) in
  let minY := Z.min (py p1) (py p2) in
  let maxY := Z.max (py p1) (py p2) in
  let covered := coveredAt points verticalEdges horizontalEdges minX maxX in
  exists (startIdx : Z) (valid : bool) (st' : Store),
    isRectangleValid points verticalEdges horizontalEdges p1 p2 ySamples st
    = Some (valid, st') /\
    lowerBound ySamples (inject_Z minY) = Some startIdx /\
    0 <= startIdx <= Z.of_nat (length ySamples) /\
    (forall j s, index ySamples j = Some s ->
                 (inject_Z minY <= s)%Q <-> startIdx <= j) /\
    (valid = true <->
     forall s, In s ySamples ->
               (inject_Z minY <= s)%Q /\ (s <= inject_Z maxY)%Q ->
               covered s) /\
    (valid = false ->
     exists passed s rest,
       skipn (Z.to_nat startIdx) ySamples = passed ++ s :: rest /\
       Forall (fun q => (q <= inject_Z maxY)%Q /\ covered q) passed /\
       (s <= inject_Z maxY)%Q /\ ~ covered s /\
       st' = runQueries points verticalEdges horizontalEdges (passed ++ [s]) st).
Proof.
  intros Hsorted Hshort Hok. cbv zeta.
  destruct (isRectangleValid_run points verticalEdges horizontalEdges
              p1 p2 ySamples st Hsorted Hshort Hok)
    as (startIdx & valid & st' & Erun & _ & Hrest).
  exists startIdx, valid, st'. split; [exact Erun|exact Hrest].
Qed.

(** ** The y-sample array *)

Lemma existsb_eqb_In (a : Z) (seen : list Z) :
  existsb (Z.eqb a) seen = true <-> In a seen.
Proof.
  rewrite existsb_exists. split.
  - intros (b & Hin & E). apply Z.eqb_eq in E. now subst.
  - intro Hin. exists a. split; [exact Hin|apply Z.eqb_refl].
Qed.

Lemma setAdd_In (arr : list Z) :
  forall seen a, In a (setAdd seen arr) <-> In a arr /\ ~ In a seen.
Proof.
  induction arr as [|b arr IH]; intros seen a; simpl.
  - tauto.
  - destruct (existsb (Z.eqb b) seen) eqn:E.
    + apply existsb_eqb_In in E. rewrite IH.
      split; [tauto|]. intros [[<-|Hin] Hn]; tauto.
    + assert (Hb : ~ In b seen).
      { intro Hc. apply existsb_eqb_In in Hc. congruence. }
      simpl. rewrite IH. simpl.
      split.
      * intros [<-|[Hin Hn]]; tauto.
      * intros [[<-|Hin] Hn]; [tauto|].
        destruct (Z.eq_dec b a); [tauto|]. right. tauto.
Qed.

Lemma setAdd_NoDup (arr : list Z) : forall seen, NoDup (setAdd seen arr).
Proof.
  induction arr as [|b arr IH]; intro seen; simpl.
  - constructor.
  - destruct (existsb (Z.eqb b) seen); [apply IH|].
    constructor; [|apply IH].
    rewrite setAdd_In. simpl. tauto.
Qed.

Lemma setAdd_length (arr : list Z) :
  forall seen, (length (setAdd seen arr) <= length arr)%nat.
Proof.
  induction arr as [|b arr IH]; intro seen; simpl; [lia|].
  destruct (existsb (Z.eqb b) seen); simpl.
  - specialize (IH seen). lia.
  - specialize (IH (b :: seen)). lia.
Qed.

Lemma sorted_nodup_strict (l : list Z) :
  StronglySorted Z.le l -> NoDup l -> StronglySorted Z.lt l.
Proof.
  induction 1 as [|a l Hs IH Ha]; intro Hnd; constructor.
  - apply IH. now inversion Hnd.
  - inversion Hnd as [|? ? Hnotin _]; subst.
    rewrite Forall_forall in *. intros b Hb.
    specialize (Ha b Hb). assert (a <> b) by (intros ->; contradiction). lia.
Qed.

Lemma uniqueYs_In (points : list Point) (y : Z) :
  In y (uniqueYs points) <-> isVertexY points y.
Proof.
  unfold uniqueYs, isVertexY.
  rewrite sortBy_In, setAdd_In, in_map_iff. simpl.
  split.
  - intros [(p & E & Hin) _]. eauto.
  - intros (p & Hin & E). split; [eauto|tauto].
Qed.

Lemma uniqueYs_strict (points : list Point) :
  StronglySorted Z.lt (uniqueYs points).
Proof.
  apply sorted_nodup_strict.
  - apply (sortBy_sorted (fun a => a)).
  - eapply Permutation_NoDup;
      [apply Permutation_sym, sortBy_perm | apply setAdd_NoDup].
Qed.

Lemma uniqueYs_length (points : list Point) :
  (length (uniqueYs points) <= length points)%nat.
Proof.
  unfold uniqueYs.
  rewrite (Permutation_length (sortBy_perm _ _)).
  etransitivity; [apply setAdd_length|]. now rewrite length_map.
Qed.

Lemma consecutive_sorted (l : list Z) (y1 y2 : Z) :
  StronglySorted Z.lt l ->
  consecutive l y1 y2 <->
  In y1 l /\ In y2 l /\ y1 < y2 /\ forall y, In y l -> ~ (y1 < y < y2).
Proof.
  induction 1 as [|a l Hs IH Ha].
  - simpl. tauto.
  - destruct l as [|b rest].
    + simpl. split; [tauto|]. intros ([<-|[]] & [<-|[]] & Hlt & _). lia.
    + change (consecutive (a :: b :: rest) y1 y2)
        with ((a = y1 /\ b = y2) \/ consecutive (b :: rest) y1 y2).
      rewrite IH. clear IH.
      inversion Hs as [|? ? _ Hb]; subst.
      rewrite Forall_forall in Ha, Hb.
      assert (Hab : a < b) by (apply Ha; now left).
      split.
      * intros [[<- <-]|(H1 & H2 & Hlt & Hbetween)].
        -- repeat split; [now left | right; now left | exact Hab |].
           intros y [<-|[<-|Hy]]; try lia.
           specialize (Hb y Hy). lia.
        -- repeat split; [now right | now right | exact Hlt |].
           intros y [<-|Hy]; [|now apply Hbetween].
           specialize (Ha y1 H1). lia.
      * intros (H1 & H2 & Hlt & Hbetween).
        assert (H2' : In y2 (b :: rest)).
        { destruct H2 as [<-|H2]; [|exact H2].
          destruct H1 as [<-|H1]; [lia|]. specialize (Ha y1 H1). lia. }
        destruct H1 as [<-|H1].
        -- left. split; [reflexivity|].
           destruct H2' as [E|H2']; [exact E|].
           specialize (Hb y2 H2').
           exfalso. apply (Hbetween b); [right; now left | lia].
        -- right. repeat split; auto.
           intros y Hy. apply Hbetween. now right.
Qed.

Lemma midpoint_between (y nextY : Z) :
  y < nextY ->
  (inject_Z y < midpoint y nextY)%Q /\ (midpoint y nextY < inject_Z nextY)%Q.
Proof.
  intro H. unfold midpoint, Qlt, Qdiv, Qmult, Qplus, Qinv, inject_Z. simpl.
  lia.
Qed.

Lemma buildSamples_In (l : list Z) (s : Q) :
  In s (buildSamples l) <->
  (exists y, In y l /\ s = inject_Z y) \/
  (exists y1 y2, consecutive l y1 y2 /\ s = midpoint y1 y2).
Proof.
  induction l as [|a l IH].
  - simpl. split; [tauto|]. intros [(y & [] & _)|(y1 & y2 & [] & _)].
  - destruct l as [|b rest].
    + simpl. split.
      * intros [<-|[]]. left. exists a. auto.
      * intros [(y & [<-|[]] & ->)|(y1 & y2 & [] & _)]. now left.
    + change (buildSamples (a :: b :: rest))
        with (inject_Z a :: midpoint a b :: buildSamples (b :: rest)).
      change (In s (inject_Z a :: midpoint a b :: buildSamples (b :: rest)))
        with (inject_Z a = s \/ midpoint a b = s \/
              In s (buildSamples (b :: rest))).
      rewrite IH. clear IH. split.
      * intros [<-|[<-|[(y & Hy & ->)|(y1 & y2 & Hc & ->)]]].
        -- left. exists a. split; [now left|reflexivity].
        -- right. exists a, b. split; [left; auto|reflexivity].
        -- left. exists y. split; [now right|reflexivity].
        -- right. exists y1, y2. split; [right; exact Hc|reflexivity].
      * intros [(y & [<-|Hy] & ->)|(y1 & y2 & [[<- <-]|Hc] & ->)].
        -- now left.
        -- right. right. left. eauto.
        -- right. now left.
        -- right. right. right. eauto.
Qed.

Lemma buildSamples_strict (l : list Z) :
  StronglySorted Z.lt l -> Sorted Qlt (buildSamples l).
Proof.
  induction 1 as [|a l Hs IH Ha].
  - constructor.
  - destruct l as [|b rest].
    + repeat constructor.
    + change (buildSamples (a :: b :: rest))
        with (inject_Z a :: midpoint a b :: buildSamples (b :: rest)).
      inversion Ha as [|? ? Hab _]; subst.
      destruct (midpoint_between a b Hab) as [H1 H2].
      constructor; [|now constructor].
      constructor; [exact IH|].
      destruct rest; simpl; constructor; exact H2.
Qed.

Lemma buildSamples_length (l : list Z) :
  (length (buildSamples l) <= 2 * length l)%nat.
Proof.
  induction l as [|a [|b rest] IH]; simpl in *; lia.
Qed.

Lemma ySamplesOf_sorted (points : list Point) :
  StronglySorted Qlt (ySamplesOf points).
Proof.
  apply Sorted_StronglySorted; [exact Qlt_trans|].
  apply buildSamples_strict, uniqueYs_strict.
Qed.

Lemma ySamplesOf_length (points : list Point) :
  (length (ySamplesOf points) <= 2 * length points)%nat.
Proof.
  unfold ySamplesOf.
  pose proof (buildSamples_length (uniqueYs points)).
  pose proof (uniqueYs_length points). lia.
Qed.

(** C6: for vertex y-values of magnitude at most [2^52] (where the sums
    and midpoints the code computes are exact), the sample array of part2
    holds exactly the vertex y-values and the midpoints [(y + nextY) / 2]
    of adjacent distinct vertex y-values, and it is strictly increasing. *)
Theorem ySamples_exact_and_increasing (points : list Point) :
  Forall (fun p => Z.abs (py p) <= 2 ^ 52) points ->
  (forall s : Q,
      In s (ySamplesOf points) <->
      (exists p, In p points /\ s = inject_Z (py p)) \/
      (exists y nextY,
          adjacentYs points y nextY /\
          s = ((inject_Z y + inject_Z nextY) / 2)%Q)) /\
  StronglySorted Qlt (ySamplesOf points).
Proof.
  intros _.
  split; [|apply ySamplesOf_sorted].
  intro s. unfold ySamplesOf. rewrite buildSamples_In.
  assert (Hadj : forall y1 y2,
             consecutive (uniqueYs points) y1 y2 <-> adjacentYs points y1 y2).
  { intros y1 y2.
    rewrite (consecutive_sorted _ y1 y2 (uniqueYs_strict points)).
    unfold adjacentYs. rewrite !uniqueYs_In.
    split; intros (H1 & H2 & H3 & H4); repeat split; auto;
      intros y Hy; apply H4; now apply uniqueYs_In. }
  split.
  - intros [(y & Hy & ->)|(y1 & y2 & Hc & ->)].
    + left. apply uniqueYs_In in Hy. destruct Hy as (p & Hin & <-). eauto.
    + right. exists y1, y2. split; [now apply Hadj|reflexivity].
  - intros [(p & Hin & ->)|(y1 & y2 & Hc & ->)].
    + left. exists (py p). split; [|reflexivity].
      apply uniqueYs_In. now exists p.
    + right. exists y1, y2. split; [now apply Hadj|reflexivity].
Qed.

(** ** The pair search *)

Lemma area_pos (p1 p2 : Point) : 0 < area p1 p2.
Proof. unfold area. nia. Qed.

Lemma part1_fold (ps : list (Point * Point)) :
  forall m,
    m <= fold_left part1Step ps m /\
    (forall p1 p2, In (p1, p2) ps -> area p1 p2 <= fold_left part1Step ps m) /\
    (fold_left part1Step ps m = m \/
     exists p1 p2, In (p1, p2) ps /\ fold_left part1Step ps m = area p1 p2).
Proof.
  induction ps as [|[q1 q2] ps IH]; intro m; simpl.
  - split; [lia|]. split; [tauto|now left].
  - destruct (IH (if area q1 q2 >? m then area q1 q2 else m)) as (H1 & H2 & H3).
    destruct (Z.gtb_spec (area q1 q2) m) as [Hgt|Hle].
    + split; [lia|]. split.
      * intros p1 p2 [[= <- <-]|Hin]; [exact H1|auto].
      * right. destruct H3 as [->|(p1 & p2 & Hin & ->)]; eauto 6.
    + split; [lia|]. split.
      * intros p1 p2 [[= <- <-]|Hin]; [lia|auto].
      * destruct H3 as [->|(p1 & p2 & Hin & ->)]; eauto 6.
Qed.

Section SearchFacts.
Variable points : list Point.
Variable verticalEdges : list VerticalEdge.
Variable horizontalEdges : list HorizontalEdge.
Variable ySamples : list Q.
Hypothesis samples_sorted : Sorted Qle ySamples.
Hypothesis samples_short : Z.of_nat (length ySamples) < 2 ^ 30.

Local Abbreviation ok := (cacheOk points verticalEdges horizontalEdges).
Local Abbreviation good :=
  (rectCovered points verticalEdges horizontalEdges ySamples).
Local Abbreviation search :=
  (searchLoop points verticalEdges horizontalEdges ySamples).

Lemma isRectangleValid_rectCovered (p1 p2 : Point) (st : Store) :
  ok st ->
  exists valid st',
    isRectangleValid points verticalEdges horizontalEdges p1 p2 ySamples st
    = Some (valid, st') /\
    ok st' /\ (valid = true <-> good p1 p2).
Proof.
  intro Hok.
  destruct (isRectangleValid_run points verticalEdges horizontalEdges
              p1 p2 ySamples st samples_sorted samples_short Hok)
    as (startIdx & valid & st' & Erun & Hok' & _ & _ & _ & Hiff & _).
  exists valid, st'. split; [exact Erun|split; [exact Hok'|exact Hiff]].
Qed.

(** The search returns the largest area among the covered pairs, or the
    initial maximum when that is larger. *)
Lemma searchLoop_max (ps : list (Point * Point)) :
  forall m st, ok st ->
    exists a st',
      search ps m st = Some (a, st') /\ ok st' /\
      m <= a /\
      (forall p1 p2, In (p1, p2) ps -> good p1 p2 -> area p1 p2 <= a) /\
      (a = m \/ exists p1 p2, In (p1, p2) ps /\ good p1 p2 /\ a = area p1 p2).
Proof.
  induction ps as [|[q1 q2] ps IH]; intros m st Hok; simpl.
  - exists m, st. split; [reflexivity|]. split; [exact Hok|].
    split; [lia|]. split; [intros p1 p2 []|now left].
  - destruct (isRectangleValid_rectCovered q1 q2 st Hok)
      as (valid & st1 & -> & Hok1 & Hvalid).
    destruct valid.
    + assert (Hgood : good q1 q2) by now apply Hvalid.
      destruct (IH (if area q1 q2 >? m then area q1 q2 else m) st1 Hok1)
        as (a & st' & -> & Hok' & Hm & Hall & Hex).
      exists a, st'. split; [reflexivity|]. split; [exact Hok'|].
      destruct (Z.gtb_spec (area q1 q2) m) as [Hgt|Hle].
      * split; [lia|]. split.
        -- intros p1 p2 [[= <- <-]|Hin] Hg; [exact Hm|auto].
        -- right. destruct Hex as [->|(p1 & p2 & Hin & Hg & ->)]; eauto 7.
      * split; [lia|]. split.
        -- intros p1 p2 [[= <- <-]|Hin] Hg; [lia|auto].
        -- destruct Hex as [->|(p1 & p2 & Hin & Hg & ->)]; eauto 7.
    + assert (Hbad : ~ good q1 q2).
      { intro Hg. apply Hvalid in Hg. discriminate. }
      destruct (IH m st1 Hok1) as (a & st' & -> & Hok' & Hm & Hall & Hex).
      exists a, st'. split; [reflexivity|]. split; [exact Hok'|].
      split; [exact Hm|]. split.
      * intros p1 p2 [[= <- <-]|Hin] Hg; [contradiction|auto].
      * destruct Hex as [->|(p1 & p2 & Hin & Hg & ->)]; eauto 7.
Qed.
End SearchFacts.

(** part2 is the largest area among the pairs whose rectangle is covered on
    every sample row it spans, and 0 when there is none. *)
Lemma part2_max (points : list Point) :
  Z.of_nat (length points) < 2 ^ 29 ->
  let good := rectCovered points (verticalEdgesOf points)
                          (horizontalEdgesOf points) (ySamplesOf points) in
  exists a,
    part2 points = Some a /\
    (forall p1 p2, In (p1, p2) (pairs points) -> good p1 p2 -> area p1 p2 <= a) /\
    (a = 0 \/
     exists p1 p2, In (p1, p2) (pairs points) /\ good p1 p2 /\ a = area p1 p2).
Proof.
  intro Hlen. cbv zeta.
  assert (Hsorted : Sorted Qle (ySamplesOf points)).
  { eapply Sorted_weaken; [exact Qlt_le_weak|].
    apply StronglySorted_Sorted, ySamplesOf_sorted. }
  assert (Hshort : Z.of_nat (length (ySamplesOf points)) < 2 ^ 30).
  { pose proof (ySamplesOf_length points). lia. }
  destruct (searchLoop_max points (verticalEdgesOf points)
              (horizontalEdgesOf points) (ySamplesOf points) Hsorted Hshort
              (pairs points) 0 emptyStore
              (cacheOk_empty points _ _))
    as (a & st' & E & _ & _ & Hall & Hex).
  exists a. split; [|split; assumption].
  unfold part2, part2State, verticalEdgesOf, horizontalEdgesOf in *.
  destruct (buildEdges (edgePairs points)) as [hs vs]. simpl in E.
  now rewrite E.
Qed.

(** C9: part2 returns, and what it returns never exceeds part1: part2 is 0
    or the area of one of the pairs that part1 maximises over, part1 is at
    least the area of every pair, and both are 0 when there is no pair. *)
Theorem part2_le_part1 (points : list Point) :
  Z.of_nat (length points) < 2 ^ 29 ->
  exists a,
    part2 points = Some a /\ a <= part1 points /\
    (a = 0 \/ exists p1 p2, In (p1, p2) (pairs points) /\ a = area p1 p2) /\
    (forall p1 p2, In (p1, p2) (pairs points) -> area p1 p2 <= part1 points) /\
    (pairs points = [] -> a = 0 /\ part1 points = 0).
Proof.
  intro Hlen.
  destruct (part2_max points Hlen) as (a & E & _ & Hex).
  destruct (part1_fold (pairs points) 0) as (H0 & Hall & _).
  fold (part1 points) in H0, Hall.
  exists a. split; [exact E|].
  split; [|split; [|split; [exact Hall|]]].
  - destruct Hex as [->|(p1 & p2 & Hin & _ & ->)]; [exact H0|now apply Hall].
  - destruct Hex as [->|(p1 & p2 & Hin & _ & ->)]; [now left|right; eauto].
  - intro Hnil. split.
    + destruct Hex as [->|(p1 & p2 & Hin & _)]; [reflexivity|].
      rewrite Hnil in Hin. contradiction.
    + unfold part1. now rewrite Hnil.
Qed.

(** ** Rectangle polygons *)

Ltac unfoldQ :=
  unfold midpoint, eps, Qdiv, Qmult, Qplus, Qminus, Qopp, Qinv, inject_Z; simpl.

(** Settles a comparison on symbolic coordinates by linear arithmetic. *)
Ltac decide_bool b :=
  first
    [ replace b with true
        by (symmetry;
            first [ apply Z.eqb_eq | apply Z.leb_le | apply Z.ltb_lt
                  | apply Z.gtb_lt | apply Z.geb_le
                  | apply Qeq_bool_iff; unfold Qeq
                  | apply Qle_bool_iff; unfold Qle
                  | apply Qltb_lt; unfold Qlt ];
            unfoldQ; lia)
    | replace b with false
        by (symmetry; apply not_true_iff_false;
            first [ rewrite Z.eqb_eq | rewrite Z.leb_le | rewrite Z.ltb_lt
                  | rewrite Z.gtb_lt | rewrite Z.geb_le
                  | rewrite Qeq_bool_iff; unfold Qeq
                  | rewrite Qle_bool_iff; unfold Qle
                  | rewrite Qltb_lt; unfold Qlt ];
            unfoldQ; lia) ].

Ltac step :=
  match goal with
  | |- context [Z.eqb ?x ?y] => decide_bool (Z.eqb x y)
  | |- context [Z.leb ?x ?y] => decide_bool (Z.leb x y)
  | |- context [Z.ltb ?x ?y] => decide_bool (Z.ltb x y)
  | |- context [Z.gtb ?x ?y] => decide_bool (Z.gtb x y)
  | |- context [Z.geb ?x ?y] => decide_bool (Z.geb x y)
  | |- context [Qeq_bool ?x ?y] => decide_bool (Qeq_bool x y)
  | |- context [Qle_bool ?x ?y] => decide_bool (Qle_bool x y)
  | |- context [Qltb ?x ?y] => decide_bool (Qltb x y)
  | |- context [Z.min ?x ?y] =>
      first [rewrite (Z.min_l x y) by lia | rewrite (Z.min_r x y) by lia]
  | |- context [Z.max ?x ?y] =>
      first [rewrite (Z.max_l x y) by lia | rewrite (Z.max_r x y) by lia]
  end.

(** Runs the code on symbolic coordinates whose order is known. *)
Ltac evaluate :=
  repeat (unfold crosses;
          cbn -[Z.eqb Z.leb Z.ltb Z.gtb Z.geb Qeq_bool Qle_bool Qltb Z.min Z.max
                Z.add Z.sub Z.mul Z.abs midpoint inject_Z Qplus Qminus eps];
          try step).

Ltac rectangle_rows Hin :=
  unfold coveredAt, computeCoverage, isAtVertex, horizontalSpans,
    getInteriorAtY, crossingXs, mergeRanges;
  unfold verticalEdgesOf, horizontalEdgesOf, ySamplesOf, uniqueYs,
    rectangleH, rectangleV in *;
  revert Hin; evaluate;
  intros [<-|[<-|[<-|[]]]];
  evaluate;
  eexists; (split; [left; reflexivity|]); simpl; lia.

Lemma rectangleH_covered (a b c d : Z) :
  a <> c -> b <> d ->
  rectCovered (rectangleH a b c d) (verticalEdgesOf (rectangleH a b c d))
    (horizontalEdgesOf (rectangleH a b c d)) (ySamplesOf (rectangleH a b c d))
    (mkPoint a b) (mkPoint c d).
Proof.
  intros Hac Hbd s Hin _.
  destruct (Z.lt_total a c) as [H1|[H1|H1]]; [|contradiction|];
    (destruct (Z.lt_total b d) as [H2|[H2|H2]]; [|contradiction|]);
    rectangle_rows Hin.
Qed.

Lemma rectangleV_covered (a b c d : Z) :
  a <> c -> b <> d ->
  rectCovered (rectangleV a b c d) (verticalEdgesOf (rectangleV a b c d))
    (horizontalEdgesOf (rectangleV a b c d)) (ySamplesOf (rectangleV a b c d))
    (mkPoint a b) (mkPoint c d).
Proof.
  intros Hac Hbd s Hin _.
  destruct (Z.lt_total a c) as [H1|[H1|H1]]; [|contradiction|];
    (destruct (Z.lt_total b d) as [H2|[H2|H2]]; [|contradiction|]);
    rectangle_rows Hin.
Qed.

Lemma area_corners (a b c d : Z) (p1 p2 : Point) :
  (px p1 = a \/ px p1 = c) -> (py p1 = b \/ py p1 = d) ->
  (px p2 = a \/ px p2 = c) -> (py p2 = b \/ py p2 = d) ->
  area p1 p2 <= (Z.abs (c - a) + 1) * (Z.abs (d - b) + 1).
Proof.
  intros Hx1 Hy1 Hx2 Hy2. unfold area.
  apply Z.mul_le_mono_nonneg; lia.
Qed.

Lemma pairs_In (points : list Point) (p1 p2 : Point) :
  In (p1, p2) (pairs points) -> In p1 points /\ In p2 points.
Proof.
  induction points as [|q points IH]; simpl; [tauto|].
  intro Hin. apply in_app_or in Hin. destruct Hin as [Hin|Hin].
  - apply in_map_iff in Hin. destruct Hin as (p & [= <- <-] & Hp). auto.
  - destruct (IH Hin). auto.
Qed.

(** When one covered pair reaches an area that bounds all pairs, part2
    returns that area. *)
Lemma part2_attained (points : list Point) (best : Z) (p1 p2 : Point) :
  Z.of_nat (length points) < 2 ^ 29 ->
  In (p1, p2) (pairs points) ->
  rectCovered points (verticalEdgesOf points) (horizontalEdgesOf points)
              (ySamplesOf points) p1 p2 ->
  area p1 p2 = best ->
  (forall q1 q2, In (q1, q2) (pairs points) -> area q1 q2 <= best) ->
  part2 points = Some best.
Proof.
  intros Hlen Hin Hgood Harea Hbound.
  destruct (part2_max points Hlen) as (a & E & Hall & Hex).
  rewrite E. f_equal.
  specialize (Hall p1 p2 Hin Hgood).
  pose proof (area_pos p1 p2).
  destruct Hex as [->|(q1 & q2 & Hq & _ & ->)]; [lia|].
  specialize (Hbound q1 q2 Hq). lia.
Qed.

(** C7: for the polygon made of the four corners of an axis-aligned
    rectangle, listed in polygon order from any corner and in either
    direction, with coordinates of magnitude at most [2^25] (where every
    midpoint and area the code computes is exact), part2 returns the
    rectangle's own inclusive-lattice area [(|dx| + 1) * (|dy| + 1)]; for
    [(0,0),(10,0),(10,10),(0,10)] this is [11 * 11 = 121]. *)
Theorem part2_rectangle_own_area (a b c d : Z) :
  a <> c -> b <> d ->
  Z.abs a <= 2 ^ 25 /\ Z.abs b <= 2 ^ 25 /\
  Z.abs c <= 2 ^ 25 /\ Z.abs d <= 2 ^ 25 ->
  part2 (rectangleH a b c d) = Some ((Z.abs (c - a) + 1) * (Z.abs (d - b) + 1)) /\
  part2 (rectangleV a b c d) = Some ((Z.abs (c - a) + 1) * (Z.abs (d - b) + 1)).
Proof.
  intros Hac Hbd _. split.
  - apply (part2_attained _ _ (mkPoint a b) (mkPoint c d)).
    + simpl. lia.
    + simpl. tauto.
    + now apply rectangleH_covered.
    + reflexivity.
    + intros q1 q2 Hq. apply pairs_In in Hq. destruct Hq as [Hq1 Hq2].
      simpl in Hq1, Hq2.
      apply area_corners;
        repeat match goal with
               | H : _ \/ _ |- _ => destruct H as [H|H]
               | H : False |- _ => contradiction
               | H : mkPoint _ _ = _ |- _ => rewrite <- H; clear H
               end; simpl; auto.
  - apply (part2_attained _ _ (mkPoint a b) (mkPoint c d)).
    + simpl. lia.
    + simpl. tauto.
    + now apply rectangleV_covered.
    + reflexivity.
    + intros q1 q2 Hq. apply pairs_In in Hq. destruct Hq as [Hq1 Hq2].
      simpl in Hq1, Hq2.
      apply area_corners;
        repeat match goal with
               | H : _ \/ _ |- _ => destruct H as [H|H]
               | H : False |- _ => contradiction
               | H : mkPoint _ _ = _ |- _ => rewrite <- H; clear H
               end; simpl; auto.
Qed.

(** ** The scenarios of the specification *)

(** C1: on the eight-point example polygon the unconstrained search returns
    50 and the polygon-constrained search returns 24. *)
Theorem example_polygon_answers :
  part1 examplePolygon = 50 /\ part2 examplePolygon = Some 24.
Proof. split; vm_compute; reflexivity. Qed.

Example part2_square_run : part2 squarePolygon = Some 121.
Proof. vm_compute. reflexivity. Qed.



(** Off a vertex row two ranges can share an end point: nothing merges
    them there. *)
Example doubled_edge_row_2 :
  computeCoverage doubledEdgePolygon (verticalEdgesOf doubledEdgePolygon)
                  (horizontalEdgesOf doubledEdgePolygon) 2
  = [mkRange 0 2; mkRange 2 4].
Proof. vm_compute. reflexivity. Qed.



(** ** Instances *)

Lemma mergeRanges_sorted_disjoint_same_union_witness :
  let ranges := [mkRange 5 8; mkRange 1 3; mkRange 2 6] in
  Forall (fun r => rstart r <= rend r) ranges /\
  Sorted byStart (mergeRanges ranges) /\
  Sorted apart (mergeRanges ranges) /\
  forall t : R, covers (mergeRanges ranges) t <-> covers ranges t.
Proof.
  cbv zeta.
  assert (H : Forall (fun r => rstart r <= rend r)
                     [mkRange 5 8; mkRange 1 3; mkRange 2 6])
    by (repeat constructor; simpl; lia).
  split; [exact H|].
  exact (mergeRanges_sorted_disjoint_same_union _ H).
Defined.


Lemma getCoverageAtY_at_vertex_witness :
  let vs := verticalEdgesOf squarePolygon in
  let hs := horizontalEdgesOf squarePolygon in
  let res := getCoverageAtY squarePolygon vs hs 0%Q emptyStore in
  cacheOk squarePolygon vs hs emptyStore /\
  (exists p, In p squarePolygon /\ (inject_Z (py p) == 0)%Q) /\
  ((inject_Z (- 2 ^ 52) < 0)%Q /\ (0 < inject_Z (2 ^ 52))%Q) /\
  let coverage := deref (snd res) (fst res) in
  let flat :=
    map (fun e => mkRange (hx1 e) (hx2 e))
        (filter (fun e => Qeq_bool (inject_Z (hy e)) 0) hs) in
  exists above below : list Range,
    interiorRangesAt (0 + (1 # 2)) vs above /\
    interiorRangesAt (0 - (1 # 2)) vs below /\
    coverage = mergeRanges (above ++ below ++ flat) /\
    Sorted byStart coverage /\
    Sorted apart coverage /\
    (forall t : R,
        covers coverage t <-> covers above t \/ covers below t \/ covers flat t).
Proof.
  cbv zeta.
  assert (Hv : exists p, In p squarePolygon /\ (inject_Z (py p) == 0)%Q)
    by (exists (mkPoint 0 0); split; [simpl; auto|reflexivity]).
  assert (Hb : (inject_Z (- 2 ^ 52) < 0)%Q /\ (0 < inject_Z (2 ^ 52))%Q)
    by (split; reflexivity).
  split; [constructor|]. split; [exact Hv|]. split; [exact Hb|].
  apply (getCoverageAtY_at_vertex squarePolygon
           (verticalEdgesOf squarePolygon) (horizontalEdgesOf squarePolygon)
           0%Q emptyStore); [constructor|exact Hv|exact Hb].
Defined.

Lemma getCoverageAtY_off_vertex_witness :
  let vs := verticalEdgesOf squarePolygon in
  let hs := horizontalEdgesOf squarePolygon in
  let res := getCoverageAtY squarePolygon vs hs 5%Q emptyStore in
  cacheOk squarePolygon vs hs emptyStore /\
  (forall p, In p squarePolygon -> ~ (inject_Z (py p) == 5)%Q) /\
  exists (strictlyInside : VerticalEdge -> bool) (xs : list Z),
    (forall e, strictlyInside e = true <->
               (inject_Z (vy1 e) < 5 /\ 5 < inject_Z (vy2 e))%Q) /\
    Permutation xs (map vx (filter strictlyInside vs)) /\
    StronglySorted Z.le xs /\
    length (deref (snd res) (fst res)) = Nat.div2 (length xs) /\
    (forall i, (2 * i + 1 < length xs)%nat ->
               nth_error (deref (snd res) (fst res)) i =
               Some (mkRange (nth (2 * i) xs 0) (nth (2 * i + 1) xs 0))).
Proof.
  cbv zeta.
  assert (Hv : forall p, In p squarePolygon -> ~ (inject_Z (py p) == 5)%Q).
  { intros p [<-|[<-|[<-|[<-|[]]]]]; unfold Qeq; simpl; lia. }
  split; [constructor|]. split; [exact Hv|].
  apply (getCoverageAtY_off_vertex squarePolygon
           (verticalEdgesOf squarePolygon) (horizontalEdgesOf squarePolygon)
           5%Q emptyStore); [constructor|exact Hv].
Defined.

Lemma isRectangleValid_spec_witness :
  let vs := verticalEdgesOf examplePolygon in
  let hs := horizontalEdgesOf examplePolygon in
  let ySamples := ySamplesOf examplePolygon in
  let p1 := mkPoint 9 5 in
  let p2 := mkPoint 2 3 in
  Sorted Qle ySamples /\
  Z.of_nat (length ySamples) < 2 ^ 30 /\
  cacheOk examplePolygon vs hs emptyStore /\
  exists (startIdx : Z) (valid : bool) (st' : Store),
    isRectangleValid examplePolygon vs hs p1 p2 ySamples emptyStore
    = Some (valid, st') /\
    lowerBound ySamples (inject_Z 3) = Some startIdx /\
    0 <= startIdx <= Z.of_nat (length ySamples) /\
    (forall j s, index ySamples j = Some s ->
                 (inject_Z 3 <= s)%Q <-> startIdx <= j) /\
    (valid = true <->
     forall s, In s ySamples ->
               (inject_Z 3 <= s)%Q /\ (s <= inject_Z 5)%Q ->
               coveredAt examplePolygon vs hs 2 9 s) /\
    (valid = false ->
     exists passed s rest,
       skipn (Z.to_nat startIdx) ySamples = passed ++ s :: rest /\
       Forall (fun q => (q <= inject_Z 5)%Q /\
                        coveredAt examplePolygon vs hs 2 9 q) passed /\
       (s <= inject_Z 5)%Q /\ ~ coveredAt examplePolygon vs hs 2 9 s /\
       st' = runQueries examplePolygon vs hs (passed ++ [s]) emptyStore).
Proof.
  cbv zeta.
  assert (Hs : Sorted Qle (ySamplesOf examplePolygon))
    by (vm_compute; repeat constructor; discriminate).
  assert (Hl : Z.of_nat (length (ySamplesOf examplePolygon)) < 2 ^ 30)
    by (vm_compute; reflexivity).
  split; [exact Hs|]. split; [exact Hl|]. split; [constructor|].
  apply (isRectangleValid_spec examplePolygon
           (verticalEdgesOf examplePolygon) (horizontalEdgesOf examplePolygon)
           (mkPoint 9 5) (mkPoint 2 3) (ySamplesOf examplePolygon) emptyStore
           Hs Hl).
  constructor.
Defined.

Lemma part2_rectangle_own_area_witness :
  0 <> 10 /\
  (Z.abs 0 <= 2 ^ 25 /\ Z.abs 0 <= 2 ^ 25 /\
   Z.abs 10 <= 2 ^ 25 /\ Z.abs 10 <= 2 ^ 25) /\
  part2 squarePolygon = Some 121.
Proof.
  assert (H : 0 <> 10) by lia.
  assert (Hb : Z.abs 0 <= 2 ^ 25 /\ Z.abs 0 <= 2 ^ 25 /\
               Z.abs 10 <= 2 ^ 25 /\ Z.abs 10 <= 2 ^ 25)
    by (simpl; lia).
  split; [exact H|]. split; [exact Hb|].
  exact (proj1 (part2_rectangle_own_area 0 0 10 10 H H Hb)).
Defined.

Lemma ySamples_exact_and_increasing_witness :
  Forall (fun p => Z.abs (py p) <= 2 ^ 52) examplePolygon /\
  (forall s : Q,
      In s (ySamplesOf examplePolygon) <->
      (exists p, In p examplePolygon /\ s = inject_Z (py p)) \/
      (exists y nextY,
          adjacentYs examplePolygon y nextY /\
          s = ((inject_Z y + inject_Z nextY) / 2)%Q)) /\
  StronglySorted Qlt (ySamplesOf examplePolygon).
Proof.
  assert (H : Forall (fun p => Z.abs (py p) <= 2 ^ 52) examplePolygon)
    by (repeat constructor; simpl; lia).
  split; [exact H|exact (ySamples_exact_and_increasing examplePolygon H)].
Defined.

Lemma part2_le_part1_witness :
  Z.of_nat (length examplePolygon) < 2 ^ 29 /\
  exists a,
    part2 examplePolygon = Some a /\ a <= part1 examplePolygon /\
    (a = 0 \/
     exists p1 p2, In (p1, p2) (pairs examplePolygon) /\ a = area p1 p2) /\
    (forall p1 p2, In (p1, p2) (pairs examplePolygon) ->
                   area p1 p2 <= part1 examplePolygon) /\
    (pairs examplePolygon = [] -> a = 0 /\ part1 examplePolygon = 0).
Proof.
  assert (H : Z.of_nat (length examplePolygon) < 2 ^ 29)
    by (vm_compute; reflexivity).
  split; [exact H|].
  exact (part2_le_part1 examplePolygon H).
Defined.

(** * Further properties of the solver *)

(** ** area and part1 *)

Lemma area_comm (p1 p2 : Point) : area p1 p2 = area p2 p1.
Proof. unfold area. f_equal; lia. Qed.

(** X1: the area of the box spanned by two points does not depend on the
    order of the two points, is at least 1, and is 1 exactly when the two
    points coincide. *)
Theorem area_symmetric_positive (p1 p2 : Point) :
  area p1 p2 = area p2 p1 /\
  1 <= area p1 p2 /\
  (area p1 p2 = 1 <-> px p1 = px p2 /\ py p1 = py p2).
Proof.
  split; [apply area_comm|]. unfold area. split; [|split].
  - nia.
  - intro H.
    assert (Hx : 0 <= Z.abs (px p2 - px p1)) by apply Z.abs_nonneg.
    assert (Hy : 0 <= Z.abs (py p2 - py p1)) by apply Z.abs_nonneg.
    assert (Z.abs (px p2 - px p1) = 0 /\ Z.abs (py p2 - py p1) = 0) by nia.
    lia.
  - intros [-> ->]. rewrite !Z.sub_diag. reflexivity.
Qed.

Lemma pairs_cons_In (q : Point) (l : list Point) (p1 p2 : Point) :
  In (p1, p2) (pairs (q :: l)) <->
  (p1 = q /\ In p2 l) \/ In (p1, p2) (pairs l).
Proof.
  simpl. rewrite in_app_iff, in_map_iff. split.
  - intros [(p & [= <- <-] & Hp)|H]; auto.
  - intros [[-> Hp]|H]; [left; exists p2; auto|now right].
Qed.

Lemma pairs_index (l : list Point) (p1 p2 : Point) :
  In (p1, p2) (pairs l) <->
  exists i j, (i < j)%nat /\ nth_error l i = Some p1 /\ nth_error l j = Some p2.
Proof.
  induction l as [|q l IH].
  - simpl. split; [tauto|]. intros (i & j & _ & H & _). destruct i; discriminate.
  - rewrite pairs_cons_In, IH. split.
    + intros [[-> Hp]|(i & j & Hij & H1 & H2)].
      * apply In_nth_error in Hp. destruct Hp as [j Hj].
        exists 0%nat, (S j). repeat split; [lia|exact Hj].
      * exists (S i), (S j). repeat split; [lia|exact H1|exact H2].
    + intros (i & j & Hij & H1 & H2).
      destruct j as [|j]; [lia|]. simpl in H2.
      destruct i as [|i]; simpl in H1.
      * left. injection H1 as <-. split; [reflexivity|].
        eapply nth_error_In; eauto.
      * right. exists i, j. repeat split; [lia|exact H1|exact H2].
Qed.

(** X2: part1 is the largest area over the index pairs [i < j]: no pair
    exceeds it and, when there are at least two points, some pair attains
    it; with fewer than two points it is 0. *)
Theorem part1_is_max (points : list Point) :
  (forall i j p1 p2,
      (i < j)%nat -> nth_error points i = Some p1 ->
      nth_error points j = Some p2 -> area p1 p2 <= part1 points) /\
  ((2 <= length points)%nat ->
   exists i j p1 p2,
     (i < j)%nat /\ nth_error points i = Some p1 /\
     nth_error points j = Some p2 /\ part1 points = area p1 p2) /\
  ((length points < 2)%nat -> part1 points = 0).
Proof.
  destruct (part1_fold (pairs points) 0) as (H0 & Hall & Hex).
  fold (part1 points) in H0, Hall, Hex.
  split; [|split].
  - intros i j p1 p2 Hij H1 H2. apply Hall, pairs_index. eauto.
  - intro Hlen.
    destruct points as [|q1 [|q2 rest]]; simpl in Hlen; try lia.
    assert (Hin : In (q1, q2) (pairs (q1 :: q2 :: rest)))
      by (simpl; auto).
    pose proof (Hall _ _ Hin) as Hge. pose proof (area_pos q1 q2) as Hpos.
    destruct Hex as [E|(p1 & p2 & Hp & E)]; [lia|].
    apply pairs_index in Hp. destruct Hp as (i & j & Hij & Hi & Hj).
    exists i, j, p1, p2. auto.
  - intro Hlen.
    destruct points as [|q1 [|q2 rest]]; simpl in Hlen; try lia; reflexivity.
Qed.

Lemma pairs_perm (l l' : list Point) :
  Permutation l l' ->
  forall p1 p2,
    In (p1, p2) (pairs l) \/ In (p2, p1) (pairs l) ->
    In (p1, p2) (pairs l') \/ In (p2, p1) (pairs l').
Proof.
  induction 1 as [|x l l' HP IH|x y l|l l' l'' _ IH1 _ IH2]; intros p1 p2.
  - auto.
  - rewrite !pairs_cons_In.
    intros [[[-> Hp]|H]|[[-> Hp]|H]].
    + left. left. split; [reflexivity|]. eapply Permutation_in; eauto.
    + destruct (IH p1 p2 (or_introl H)); tauto.
    + right. left. split; [reflexivity|]. eapply Permutation_in; eauto.
    + destruct (IH p1 p2 (or_intror H)); tauto.
  - rewrite !pairs_cons_In. cbn [In]. intuition (subst; auto).
  - intro H. apply IH2, IH1, H.
Qed.

(** X3: part1 does not depend on the order in which the points are listed. *)
Theorem part1_order_independent (points points' : list Point) :
  Permutation points points' -> part1 points = part1 points'.
Proof.
  assert (Hle : forall l l', Permutation l l' -> part1 l <= part1 l').
  { intros l l' HP.
    destruct (part1_fold (pairs l) 0) as (_ & _ & Hex).
    destruct (part1_fold (pairs l') 0) as (H0 & Hall & _).
    fold (part1 l) in Hex. fold (part1 l') in H0, Hall.
    destruct Hex as [->|(p1 & p2 & Hin & ->)]; [exact H0|].
    destruct (pairs_perm l l' HP p1 p2 (or_introl Hin)) as [H|H].
    - now apply Hall.
    - rewrite area_comm. now apply Hall. }
  intro HP. apply Z.le_antisymm.
  - now apply Hle.
  - apply Hle. now apply Permutation_sym.
Qed.

(** ** mergeRanges *)

Lemma mergeFrom_contains (l : list Range) :
  forall cur r,
    StronglySorted byStart (cur :: l) -> In r (cur :: l) ->
    exists r', In r' (mergeFrom cur l) /\
               rstart r' <= rstart r /\ rend r <= rend r'.
Proof.
  induction l as [|r0 l IH]; intros cur r Hs Hin.
  - destruct Hin as [<-|[]]. exists cur. simpl. split; [auto|lia].
  - inversion Hs as [|? ? Hs' Hall]; subst.
    inversion Hall as [|? ? Hcr Hall']; subst.
    inversion Hs' as [|? ? Hs'' _]; subst.
    simpl mergeFrom.
    destruct (Z.ltb_spec (rend cur) (rstart r0)) as [Hlt|Hge].
    + destruct Hin as [<-|Hin].
      * exists cur. split; [now left|lia].
      * destruct (IH r0 r Hs' Hin) as (r' & Hr' & Hb).
        exists r'. split; [now right|exact Hb].
    + set (cur' := mkRange (rstart cur) (Z.max (rend cur) (rend r0))).
      assert (Hs1 : StronglySorted byStart (cur' :: l))
        by (constructor; [exact Hs''|exact Hall']).
      assert (Hwide : forall q, In q [cur; r0] ->
                 exists r', In r' (mergeFrom cur' l) /\
                            rstart r' <= rstart q /\ rend q <= rend r').
      { intros q Hq.
        destruct (IH cur' cur' Hs1 (or_introl eq_refl)) as (r' & Hr' & H1 & H2).
        exists r'. split; [exact Hr'|].
        unfold byStart in Hcr. simpl in H1, H2.
        destruct Hq as [<-|[<-|[]]]; lia. }
      destruct Hin as [<-|[<-|Hin]].
      * apply Hwide. now left.
      * apply Hwide. right. now left.
      * apply (IH cur' r Hs1). now right.
Qed.

Lemma mergeRanges_contains (ranges : list Range) (r : Range) :
  In r ranges ->
  exists r', In r' (mergeRanges ranges) /\
             rstart r' <= rstart r /\ rend r <= rend r'.
Proof.
  intro Hin. rewrite mergeRanges_from.
  pose proof (sortBy_sorted rstart ranges) as Hs.
  apply (sortBy_In rstart) in Hin.
  destruct (sortBy rstart ranges) as [|cur l]; [contradiction|].
  now apply mergeFrom_contains.
Qed.

(** X4: every input range lies inside a single output range of
    mergeRanges, whatever the input. *)
Theorem mergeRanges_contains_inputs (ranges : list Range) :
  forall r, In r ranges ->
    exists r', In r' (mergeRanges ranges) /\
               rstart r' <= rstart r /\ rend r <= rend r'.
Proof. intros r Hin. now apply mergeRanges_contains. Qed.

Lemma sortBy_sorted_id {A : Type} (key : A -> Z) (l : list A) :
  Sorted (fun a b => key a <= key b) l -> sortBy key l = l.
Proof.
  induction 1 as [|a l Hs IH Hhd]; simpl; [reflexivity|].
  rewrite IH. destruct Hhd as [|b l Hab]; simpl; [reflexivity|].
  destruct (Z.leb_spec (key a) (key b)); [reflexivity|lia].
Qed.

Lemma mergeFrom_apart_id (l : list Range) :
  forall cur, Sorted apart (cur :: l) -> mergeFrom cur l = cur :: l.
Proof.
  induction l as [|r l IH]; intros cur Hs; simpl; [reflexivity|].
  inversion Hs as [|? ? Hs' Hhd]; subst.
  inversion Hhd as [|? ? Hcr]; subst. unfold apart in Hcr.
  destruct (Z.ltb_spec (rend cur) (rstart r)); [|lia].
  now rewrite IH.
Qed.

(** X5: mergeRanges leaves a list unchanged when it is already sorted by
    start with every range ending before the next one starts; hence
    merging twice is the same as merging once. *)
Theorem mergeRanges_idempotent (ranges : list Range) :
  (Sorted byStart ranges -> Sorted apart ranges ->
   mergeRanges ranges = ranges) /\
  mergeRanges (mergeRanges ranges) = mergeRanges ranges.
Proof.
  assert (Hfix : forall l, Sorted byStart l -> Sorted apart l ->
                           mergeRanges l = l).
  { intros l H1 H2. rewrite mergeRanges_from.
    rewrite (sortBy_sorted_id rstart l H1).
    destruct l as [|cur l]; [reflexivity|].
    now apply mergeFrom_apart_id. }
  split.
  - apply Hfix.
  - apply Hfix; [apply mergeRanges_byStart|apply mergeRanges_apart].
Qed.

Lemma mergeFrom_endpoints (l : list Range) :
  forall cur r',
    In r' (mergeFrom cur l) ->
    (rstart r' = rstart cur \/ exists r, In r l /\ rstart r = rstart r') /\
    (rend r' = rend cur \/ exists r, In r l /\ rend r = rend r').
Proof.
  induction l as [|r0 l IH]; intros cur r' Hin; simpl in Hin.
  - destruct Hin as [<-|[]]. auto.
  - destruct (rend cur <? rstart r0).
    + destruct Hin as [<-|Hin]; [auto|].
      destruct (IH r0 r' Hin) as [[H1|(r & Hr & H1)] [H2|(q & Hq & H2)]];
        split; right;
        solve [ exists r0; split; [now left|auto]
              | exists r; split; [now right|auto]
              | exists q; split; [now right|auto] ].
    + destruct (IH _ r' Hin) as [H1 H2]. simpl in H1, H2. split.
      * destruct H1 as [H1|(r & Hr & H1)]; [now left|].
        right. exists r. split; [now right|auto].
      * destruct H2 as [H2|(q & Hq & H2)].
        -- destruct (Z.max_spec (rend cur) (rend r0)) as [[_ E]|[_ E]];
             rewrite E in H2; [|now left].
           right. exists r0. split; [now left|auto].
        -- right. exists q. split; [now right|auto].
Qed.

Lemma mergeFrom_length (l : list Range) :
  forall cur, (1 <= length (mergeFrom cur l) <= S (length l))%nat.
Proof.
  induction l as [|r0 l IH]; intro cur; simpl; [lia|].
  destruct (rend cur <? rstart r0); simpl.
  - specialize (IH r0). lia.
  - specialize (IH (mkRange (rstart cur) (Z.max (rend cur) (rend r0)))). lia.
Qed.

Lemma mergeFrom_wellformed (l : list Range) :
  forall cur,
    Forall (fun r => rstart r <= rend r) (cur :: l) ->
    Forall (fun r => rstart r <= rend r) (mergeFrom cur l).
Proof.
  induction l as [|r0 l IH]; intros cur H; simpl; [exact H|].
  inversion H as [|? ? Hc H']; subst. inversion H' as [|? ? H0 H'']; subst.
  destruct (rend cur <? rstart r0).
  - constructor; [exact Hc|now apply IH].
  - apply IH. constructor; [simpl; lia|exact H''].
Qed.

Lemma mergeRanges_wellformed (ranges : list Range) :
  Forall (fun r => rstart r <= rend r) ranges ->
  Forall (fun r => rstart r <= rend r) (mergeRanges ranges).
Proof.
  intro Hwf. rewrite mergeRanges_from.
  pose proof (sortBy_perm rstart ranges) as HP.
  destruct (sortBy rstart ranges) as [|cur l]; [constructor|].
  apply mergeFrom_wellformed.
  eapply Permutation_Forall; [apply Permutation_sym, HP|exact Hwf].
Qed.

(** X6: mergeRanges invents no end point and no range: every output start
    is the start of an input range and every output end is the end of an
    input range, the output is no longer than the input and is empty only
    for the empty input, and when every input range has [start <= end] so
    has every output range. *)
Theorem mergeRanges_output_from_inputs (ranges : list Range) :
  (forall r', In r' (mergeRanges ranges) ->
              (exists r, In r ranges /\ rstart r = rstart r') /\
              (exists r, In r ranges /\ rend r = rend r')) /\
  (length (mergeRanges ranges) <= length ranges)%nat /\
  (mergeRanges ranges = [] <-> ranges = []) /\
  (Forall (fun r => rstart r <= rend r) ranges ->
   Forall (fun r => rstart r <= rend r) (mergeRanges ranges)).
Proof.
  rewrite mergeRanges_from.
  pose proof (sortBy_perm rstart ranges) as HP.
  destruct (sortBy rstart ranges) as [|cur l] eqn:E.
  - apply Permutation_nil in HP. subst. simpl.
    repeat split; auto; contradiction.
  - assert (Hsub : forall r, In r (cur :: l) -> In r ranges)
      by (intros r Hr; eapply Permutation_in; eauto).
    split; [|split; [|split]].
    + intros r' Hr'.
      destruct (mergeFrom_endpoints l cur r' Hr')
        as [[H1|(r & Hr & H1)] [H2|(q & Hq & H2)]]; split;
        solve [ exists cur; split; [apply Hsub; now left|auto]
              | exists r; split; [apply Hsub; now right|auto]
              | exists q; split; [apply Hsub; now right|auto] ].
    + rewrite <- (Permutation_length HP).
      pose proof (mergeFrom_length l cur). simpl. lia.
    + pose proof (mergeFrom_length l cur) as Hlen.
      split; intro H.
      * rewrite H in Hlen. simpl in Hlen. lia.
      * subst. apply Permutation_sym, Permutation_nil in HP. discriminate.
    + intro Hwf. apply mergeFrom_wellformed.
      eapply Permutation_Forall; [apply Permutation_sym, HP|exact Hwf].
Qed.

(** ** getInteriorAtY *)

Lemma pairUp_In (xs : list Z) (r : Range) :
  In r (pairUp xs) -> In (rstart r) xs /\ In (rend r) xs.
Proof.
  induction xs as [| x | x1 x2 rest IH] using pair_induction; simpl;
    try contradiction.
  intros [<-|Hin]; simpl; [auto|].
  destruct (IH Hin). auto.
Qed.

Lemma pairUp_wellformed (xs : list Z) :
  StronglySorted Z.le xs -> Forall (fun r => rstart r <= rend r) (pairUp xs).
Proof.
  induction xs as [| x | x1 x2 rest IH] using pair_induction; intro Hs; simpl;
    try constructor.
  - inversion Hs as [|? ? _ H]; subst. inversion H; subst. assumption.
  - apply IH. inversion Hs as [|? ? Hs' _]; subst. now inversion Hs'.
Qed.

Lemma getInteriorAtY_wellformed (y : Q) (verticalEdges : list VerticalEdge) :
  Forall (fun r => rstart r <= rend r) (getInteriorAtY y verticalEdges).
Proof. apply pairUp_wellformed, (sortBy_sorted (fun a => a)). Qed.

Lemma div2_index (i n : nat) : (i < Nat.div2 n)%nat -> (2 * i + 1 < n)%nat.
Proof.
  rewrite Nat.div2_div. intro Hi.
  pose proof (Nat.div_mod_eq n 2) as E.
  pose proof (Nat.mod_upper_bound n 2 ltac:(lia)) as Hm.
  lia.
Qed.

(** X7: getInteriorAtY returns exactly the ranges
    [(x[0], x[1]), (x[2], x[3]), ...] where [x] is the ascending list of
    the [x] of the vertical edges with [y1 < y < y2]: with [k] such edges
    there are [k / 2] ranges (rounded down), an unpaired last crossing
    giving no range; every range has [start <= end], and a row that no
    vertical edge strictly crosses has no interior. *)
Theorem getInteriorAtY_ranges (y : Q) (verticalEdges : list VerticalEdge) :
  let ranges := getInteriorAtY y verticalEdges in
  exists (strictlyInside : VerticalEdge -> bool) (xs : list Z),
    (forall e, strictlyInside e = true <->
               (inject_Z (vy1 e) < y /\ y < inject_Z (vy2 e))%Q) /\
    Permutation xs (map vx (filter strictlyInside verticalEdges)) /\
    StronglySorted Z.le xs /\
    length ranges = Nat.div2 (length xs) /\
    (forall r, In r ranges <->
               exists i, (2 * i + 1 < length xs)%nat /\
                         r = mkRange (nth (2 * i) xs 0) (nth (2 * i + 1) xs 0)) /\
    Forall (fun r => rstart r <= rend r) ranges /\
    ((forall e, In e verticalEdges ->
                ~ (inject_Z (vy1 e) < y /\ y < inject_Z (vy2 e))%Q) ->
     ranges = []).
Proof.
  cbv zeta.
  exists (crosses y), (crossingXs y verticalEdges).
  split; [apply crosses_spec|].
  split; [apply sortBy_perm|].
  split; [apply (sortBy_sorted (fun a => a))|].
  assert (Hlen : length (getInteriorAtY y verticalEdges) =
                 Nat.div2 (length (crossingXs y verticalEdges)))
    by apply pairUp_length.
  split; [exact Hlen|].
  split; [|split].
  - intro r. split.
    + intro Hin. apply In_nth_error in Hin. destruct Hin as [i Hi].
      assert (Hlt : (i < length (getInteriorAtY y verticalEdges))%nat)
        by (apply nth_error_Some; congruence).
      rewrite Hlen in Hlt. apply div2_index in Hlt.
      exists i. split; [exact Hlt|].
      unfold getInteriorAtY in Hi. rewrite (pairUp_nth _ _ Hlt) in Hi.
      congruence.
    + intros (i & Hlt & ->).
      apply nth_error_In with (n := i). now apply pairUp_nth.
  - apply getInteriorAtY_wellformed.
  - intro Hnone. apply length_zero_iff_nil. rewrite Hlen.
    unfold crossingXs.
    rewrite (Permutation_length (sortBy_perm _ _)), length_map.
    destruct (filter (crosses y) verticalEdges) as [|e rest] eqn:E;
      [reflexivity|].
    exfalso.
    assert (He : In e (filter (crosses y) verticalEdges))
      by (rewrite E; now left).
    apply filter_In in He. destruct He as [He Hc].
    apply crosses_spec in Hc. exact (Hnone e He Hc).
Qed.

(** ** lowerBound on arbitrary arrays *)

Section LowerBoundAny.
Variable arr : list Q.
Variable target : Q.
Hypothesis arr_short : Z.of_nat (length arr) < 2 ^ 30.

Lemma lowerBoundLoop_edge (fuel : nat) :
  forall lo hi i,
    0 <= lo -> lo <= hi -> hi <= Z.of_nat (length arr) ->
    edge arr target lo hi ->
    lowerBoundLoop fuel arr target lo hi = Some i ->
    lo <= i <= hi /\ edge arr target i i.
Proof.
  induction fuel as [|fuel IH]; intros lo hi i Hlo Hle Hhi Hedge; [discriminate|].
  simpl. destruct (Z.ltb_spec lo hi) as [Hlt|Hge].
  - pose proof (mid_small lo hi Hlo Hlt ltac:(lia)) as Hmid.
    cbv zeta in Hmid.
    destruct (index_Some arr (Z.shiftr (toInt32 (lo + hi)) 1) ltac:(lia))
      as [v Ev].
    rewrite Ev. destruct Hedge as [Hbelow Habove].
    destruct (Qltb v target) eqn:Ecmp.
    + intro E. apply IH in E; try lia.
      * split; [lia|apply E].
      * split; [|exact Habove].
        intros w Ew.
        replace (Z.shiftr (toInt32 (lo + hi)) 1 + 1 - 1)
          with (Z.shiftr (toInt32 (lo + hi)) 1) in Ew by lia.
        rewrite Ev in Ew. injection Ew as <-. now apply Qltb_lt.
    + intro E. apply IH in E; try lia.
      * split; [lia|apply E].
      * split; [exact Hbelow|].
        intros w Ew. rewrite Ev in Ew. injection Ew as <-.
        apply Qnot_lt_le. intro Hc. apply Qltb_lt in Hc. congruence.
  - intros [= <-]. assert (lo = hi) by lia. subst hi. split; [lia|exact Hedge].
Qed.

End LowerBoundAny.

(** X8: on every array shorter than [2^30], sorted or not, lowerBound
    finishes with an index [i] in [[0, length]] such that the element just
    before [i] is below the target and the element at [i] is not; so it
    returns [length] when every element is below the target (0 for the
    empty array) and 0 when no element is. *)
Theorem lowerBound_any_array (arr : list Q) (target : Q) :
  Z.of_nat (length arr) < 2 ^ 30 ->
  exists i,
    lowerBound arr target = Some i /\
    0 <= i <= Z.of_nat (length arr) /\
    (forall v, index arr (i - 1) = Some v -> (v < target)%Q) /\
    (forall v, index arr i = Some v -> (target <= v)%Q) /\
    ((forall v, In v arr -> (v < target)%Q) -> i = Z.of_nat (length arr)) /\
    ((forall v, In v arr -> (target <= v)%Q) -> i = 0).
Proof.
  intro Hshort.
  destruct (lowerBound_total arr target Hshort) as (i & E & Hi).
  exists i. split; [exact E|]. split; [exact Hi|].
  unfold lowerBound in E.
  apply (lowerBoundLoop_edge arr target Hshort) in E; try lia.
  - destruct E as [_ [Hb Ha]]. split; [exact Hb|]. split; [exact Ha|]. split.
    + intro Hall.
      destruct (Z.eq_dec i (Z.of_nat (length arr))) as [|Hne]; [assumption|].
      exfalso. destruct (index_Some arr i ltac:(lia)) as [v Ev].
      assert (Hin : In v arr).
      { unfold index in Ev. destruct (i <? 0); [discriminate|].
        eapply nth_error_In; eauto. }
      exact (Qlt_not_le _ _ (Hall v Hin) (Ha v Ev)).
    + intro Hall.
      destruct (Z.eq_dec i 0) as [|Hne]; [assumption|].
      exfalso. destruct (index_Some arr (i - 1) ltac:(lia)) as [v Ev].
      assert (Hin : In v arr).
      { unfold index in Ev. destruct (i - 1 <? 0); [discriminate|].
        eapply nth_error_In; eauto. }
      exact (Qlt_not_le _ _ (Hb v Ev) (Hall v Hin)).
  - split; intros v Ev; apply index_bounds in Ev; lia.
Qed.

Lemma count_below_split (target : Q) (l : list Q) :
  forall n : nat,
    (n <= length l)%nat ->
    (forall j v, (j < n)%nat -> nth_error l j = Some v -> (v < target)%Q) ->
    (forall j v, (n <= j)%nat -> nth_error l j = Some v -> (target <= v)%Q) ->
    length (filter (fun v => Qltb v target) l) = n.
Proof.
  induction l as [|a l IH]; intros n Hn Hlt Hge; simpl in *.
  - lia.
  - destruct n as [|n].
    + assert (Ha : Qltb a target = false).
      { apply not_true_iff_false. intro Hc. apply Qltb_lt in Hc.
        exact (Qlt_not_le _ _ Hc (Hge 0%nat a (Nat.le_refl 0) eq_refl)). }
      rewrite Ha. apply IH; [lia| intros; lia |].
      intros j v _ Ej. apply (Hge (S j) v); [lia|exact Ej].
    + assert (Ha : Qltb a target = true)
        by (apply Qltb_lt, (Hlt 0%nat a); [lia|reflexivity]).
      rewrite Ha. simpl. f_equal. apply IH; [lia| |].
      * intros j v Hj Ej. apply (Hlt (S j) v); [lia|exact Ej].
      * intros j v Hj Ej. apply (Hge (S j) v); [lia|exact Ej].
Qed.

(** X9: on a sorted array shorter than [2^30], lowerBound returns the
    number of elements that are below the target. *)
Theorem lowerBound_counts_below (arr : list Q) (target : Q) :
  Sorted Qle arr ->
  Z.of_nat (length arr) < 2 ^ 30 ->
  lowerBound arr target =
  Some (Z.of_nat (length (filter (fun v => Qltb v target) arr))).
Proof.
  intros Hsorted Hshort.
  assert (Hs : StronglySorted Qle arr)
    by (apply Sorted_StronglySorted; [exact Qle_trans|exact Hsorted]).
  destruct (lowerBound_spec arr target Hshort Hs) as (i & E & Hi & Hb & Ha).
  rewrite E. f_equal.
  rewrite (count_below_split target arr (Z.to_nat i)); [lia|lia| |].
  - intros j v Hj Ej. apply (Hb (Z.of_nat j)); [lia|].
    unfold index. destruct (Z.ltb_spec (Z.of_nat j) 0); [lia|].
    now rewrite Nat2Z.id.
  - intros j v Hj Ej. apply (Ha (Z.of_nat j)); [lia|].
    unfold index. destruct (Z.ltb_spec (Z.of_nat j) 0); [lia|].
    now rewrite Nat2Z.id.
Qed.

(** ** isRectangleValid *)

(** X10: the answer of isRectangleValid depends on the two corners only
    through their bounding box and not on which coherent cache it starts
    from, and it is monotone: when a box is valid, so is every box inside
    it. *)
Theorem isRectangleValid_monotone
    (points : list Point) (verticalEdges : list VerticalEdge)
    (horizontalEdges : list HorizontalEdge) (ySamples : list Q)
    (p1 p2 q1 q2 : Point) (st st' : Store) :
  Sorted Qle ySamples ->
  Z.of_nat (length ySamples) < 2 ^ 30 ->
  cacheOk points verticalEdges horizontalEdges st ->
  cacheOk points verticalEdges horizontalEdges st' ->
  Z.min (px p1) (px p2) <= Z.min (px q1) (px q2) ->
  Z.max (px q1) (px q2) <= Z.max (px p1) (px p2) ->
  Z.min (py p1) (py p2) <= Z.min (py q1) (py q2) ->
  Z.max (py q1) (py q2) <= Z.max (py p1) (py p2) ->
  option_map fst
    (isRectangleValid points verticalEdges horizontalEdges p1 p2 ySamples st)
  = Some true ->
  option_map fst
    (isRectangleValid points verticalEdges horizontalEdges q1 q2 ySamples st')
  = Some true.
Proof.
  intros Hsorted Hshort Hok Hok' Hx1 Hx2 Hy1 Hy2 Hp.
  destruct (isRectangleValid_rectCovered points verticalEdges horizontalEdges
              ySamples Hsorted Hshort p1 p2 st Hok)
    as (b & s1 & E & _ & Hiff).
  rewrite E in Hp. simpl in Hp. injection Hp as ->.
  destruct (isRectangleValid_rectCovered points verticalEdges horizontalEdges
              ySamples Hsorted Hshort q1 q2 st' Hok')
    as (b' & s2 & E' & _ & Hiff').
  rewrite E'. simpl. f_equal. apply Hiff'.
  assert (Hgood := proj1 Hiff eq_refl).
  intros s Hin [Hlo Hhi].
  destruct (Hgood s Hin) as (r & Hr & Hs & He).
  - split.
    + eapply Qle_trans; [|exact Hlo]. rewrite <- Zle_Qle. exact Hy1.
    + eapply Qle_trans; [exact Hhi|]. rewrite <- Zle_Qle. exact Hy2.
  - exists r. split; [exact Hr|lia].
Qed.

(** ** Building the edges *)

Lemma nth_error_combine_both {A B : Type} (l : list A) (l' : list B) :
  forall i a b,
    nth_error (combine l l') i = Some (a, b) <->
    nth_error l i = Some a /\ nth_error l' i = Some b.
Proof.
  revert l'. induction l as [|x l IH]; intros l' i a b.
  - simpl. destruct i; simpl; split; try discriminate; intros [H _]; discriminate.
  - destruct l' as [|y l'].
    + simpl. destruct i; simpl; split; try discriminate; intros [_ H]; discriminate.
    + destruct i as [|i]; simpl.
      * split; [intros [= <- <-]; auto|intros [[= <-] [= <-]]; reflexivity].
      * apply IH.
Qed.

Lemma nth_error_next (l : list Point) (i : nat) :
  (i < length l)%nat ->
  nth_error (tl l ++ firstn 1 l) i = nth_error l ((i + 1) mod length l).
Proof.
  destruct l as [|a t]; simpl length; [lia|]. intro Hi.
  change (tl (a :: t)) with t. change (firstn 1 (a :: t)) with [a].
  destruct (Nat.eq_dec i (length t)) as [->|Hne].
  - rewrite nth_error_app2, Nat.sub_diag by lia.
    replace (length t + 1)%nat with (S (length t)) by lia.
    rewrite Nat.Div0.mod_same. reflexivity.
  - rewrite nth_error_app1 by lia.
    rewrite Nat.mod_small by lia.
    replace (i + 1)%nat with (S i) by lia. reflexivity.
Qed.

Lemma edgePairs_length (points : list Point) :
  length (edgePairs points) = length points.
Proof.
  unfold edgePairs. rewrite length_combine, length_app.
  destruct points as [|a t]; cbn [tl firstn length]; lia.
Qed.

Lemma edgePairs_In (points : list Point) (p1 p2 : Point) :
  In (p1, p2) (edgePairs points) <->
  exists i, nth_error points i = Some p1 /\
            nth_error points ((i + 1) mod length points) = Some p2.
Proof.
  unfold edgePairs. split.
  - intro Hin. apply In_nth_error in Hin. destruct Hin as [i Hi].
    apply nth_error_combine_both in Hi. destruct Hi as [H1 H2].
    exists i. split; [exact H1|].
    rewrite <- nth_error_next; [exact H2|].
    apply nth_error_Some. congruence.
  - intros (i & H1 & H2).
    apply nth_error_In with (n := i). apply nth_error_combine_both.
    split; [exact H1|].
    rewrite nth_error_next; [exact H2|].
    apply nth_error_Some. congruence.
Qed.

Lemma buildEdges_length (ps : list (Point * Point)) :
  (length (fst (buildEdges ps)) + length (snd (buildEdges ps)) = length ps)%nat.
Proof.
  induction ps as [|[p1 p2] ps IH]; simpl; [reflexivity|].
  destruct (buildEdges ps) as [hs vs]. simpl in IH.
  destruct (py p1 =? py p2); simpl; lia.
Qed.

Lemma buildEdges_horizontal (ps : list (Point * Point)) (h : HorizontalEdge) :
  In h (fst (buildEdges ps)) <->
  exists p1 p2, In (p1, p2) ps /\ py p1 = py p2 /\
                h = mkHEdge (py p1) (Z.min (px p1) (px p2)) (Z.max (px p1) (px p2)).
Proof.
  induction ps as [|[q1 q2] ps IH]; simpl.
  - split; [contradiction|]. intros (p1 & p2 & [] & _).
  - destruct (buildEdges ps) as [hs vs]. simpl in IH.
    destruct (Z.eqb_spec (py q1) (py q2)) as [Heq|Hne]; simpl; rewrite IH.
    + split.
      * intros [<-|(p1 & p2 & Hin & H)]; [exists q1, q2; auto|].
        exists p1, p2. auto.
      * intros (p1 & p2 & [[= <- <-]|Hin] & Hy & ->); [now left|].
        right. exists p1, p2. auto.
    + split.
      * intros (p1 & p2 & Hin & H). exists p1, p2. auto.
      * intros (p1 & p2 & [[= <- <-]|Hin] & Hy & ->); [contradiction|].
        exists p1, p2. auto.
Qed.

Lemma buildEdges_vertical (ps : list (Point * Point)) (v : VerticalEdge) :
  In v (snd (buildEdges ps)) <->
  exists p1 p2, In (p1, p2) ps /\ py p1 <> py p2 /\
                v = mkVEdge (px p1) (Z.min (py p1) (py p2)) (Z.max (py p1) (py p2)).
Proof.
  induction ps as [|[q1 q2] ps IH]; simpl.
  - split; [contradiction|]. intros (p1 & p2 & [] & _).
  - destruct (buildEdges ps) as [hs vs]. simpl in IH.
    destruct (Z.eqb_spec (py q1) (py q2)) as [Heq|Hne]; simpl; rewrite IH.
    + split.
      * intros (p1 & p2 & Hin & H). exists p1, p2. auto.
      * intros (p1 & p2 & [[= <- <-]|Hin] & Hy & ->); [contradiction|].
        exists p1, p2. auto.
    + split.
      * intros [<-|(p1 & p2 & Hin & H)]; [exists q1, q2; auto|].
        exists p1, p2. auto.
      * intros (p1 & p2 & [[= <- <-]|Hin] & Hy & ->); [now left|].
        right. exists p1, p2. auto.
Qed.

Lemma horizontalEdgesOf_ordered (points : list Point) :
  Forall (fun h => hx1 h <= hx2 h) (horizontalEdgesOf points).
Proof.
  apply Forall_forall. intros h Hin.
  apply buildEdges_horizontal in Hin. destruct Hin as (p1 & p2 & _ & _ & ->).
  simpl. lia.
Qed.

(** X11: part2 derives exactly one edge from each point and its cyclic
    successor [points[(i + 1) % n]]: a horizontal edge [{y, min x, max x}]
    when the two y are equal, otherwise a vertical edge at the first
    point's [x] spanning [min y .. max y].  So horizontal edges have
    [x1 <= x2], vertical edges have [y1 < y2], and a step that changes both
    coordinates is recorded as a vertical edge. *)
Theorem buildEdges_classifies (points : list Point) :
  let n := length points in
  (length (horizontalEdgesOf points) + length (verticalEdgesOf points) = n)%nat /\
  (forall h, In h (horizontalEdgesOf points) <->
     exists i p1 p2,
       nth_error points i = Some p1 /\
       nth_error points ((i + 1) mod n) = Some p2 /\
       py p1 = py p2 /\
       h = mkHEdge (py p1) (Z.min (px p1) (px p2)) (Z.max (px p1) (px p2))) /\
  (forall v, In v (verticalEdgesOf points) <->
     exists i p1 p2,
       nth_error points i = Some p1 /\
       nth_error points ((i + 1) mod n) = Some p2 /\
       py p1 <> py p2 /\
       v = mkVEdge (px p1) (Z.min (py p1) (py p2)) (Z.max (py p1) (py p2))) /\
  Forall (fun h => hx1 h <= hx2 h) (horizontalEdgesOf points) /\
  Forall (fun v => vy1 v < vy2 v) (verticalEdgesOf points).
Proof.
  cbv zeta. unfold horizontalEdgesOf, verticalEdgesOf.
  split; [|split; [|split; [|split]]].
  - rewrite buildEdges_length. apply edgePairs_length.
  - intro h. rewrite buildEdges_horizontal. split.
    + intros (p1 & p2 & Hin & Hy & ->). apply edgePairs_In in Hin.
      destruct Hin as (i & H1 & H2). exists i, p1, p2. auto.
    + intros (i & p1 & p2 & H1 & H2 & Hy & ->). exists p1, p2.
      split; [apply edgePairs_In; eauto|auto].
  - intro v. rewrite buildEdges_vertical. split.
    + intros (p1 & p2 & Hin & Hy & ->). apply edgePairs_In in Hin.
      destruct Hin as (i & H1 & H2). exists i, p1, p2. auto.
    + intros (i & p1 & p2 & H1 & H2 & Hy & ->). exists p1, p2.
      split; [apply edgePairs_In; eauto|auto].
  - apply horizontalEdgesOf_ordered.
  - apply Forall_forall. intros v Hin.
    apply buildEdges_vertical in Hin. destruct Hin as (p1 & p2 & _ & Hy & ->).
    simpl. lia.
Qed.

(** ** Well-formed coverage *)

(** X15: for the edges that part2 builds, every range of every coverage set
    has [start <= end], at vertex rows and at the rows between them. *)
Theorem coverage_ranges_wellformed (points : list Point) (y : Q) :
  Forall (fun r => rstart r <= rend r)
         (computeCoverage points (verticalEdgesOf points)
                          (horizontalEdgesOf points) y).
Proof.
  unfold computeCoverage.
  destruct (isAtVertex points y); [|apply getInteriorAtY_wellformed].
  rewrite mergeRanges_from.
  pose proof (sortBy_perm rstart
                (getInteriorAtY (y + eps) (verticalEdgesOf points) ++
                 getInteriorAtY (y - eps) (verticalEdgesOf points) ++
                 horizontalSpans (horizontalEdgesOf points) y)) as HP.
  destruct (sortBy rstart _) as [|cur l]; [constructor|].
  apply mergeFrom_wellformed.
  eapply Permutation_Forall; [apply Permutation_sym, HP|].
  repeat (apply Forall_app; split); try apply getInteriorAtY_wellformed.
  unfold horizontalSpans. apply Forall_forall. intros r Hr.
  apply in_map_iff in Hr. destruct Hr as (h & <- & Hh).
  apply filter_In in Hh. destruct Hh as [Hh _].
  pose proof (horizontalEdgesOf_ordered points) as Hord.
  rewrite Forall_forall in Hord. simpl. now apply Hord.
Qed.

(** ** The sample array and the search *)

Lemma buildSamples_count (l : list Z) :
  length (buildSamples l) = (2 * length l - 1)%nat.
Proof.
  induction l as [|a [|b rest] IH]; simpl in *; try reflexivity.
  rewrite IH. lia.
Qed.

(** X12: with [k] distinct vertex y-values the sample array has [2k - 1]
    rows (none for an empty point list), and [k] is at most the number of
    points. *)
Theorem ySamples_count (points : list Point) :
  exists ys : list Z,
    NoDup ys /\
    (forall y, In y ys <-> isVertexY points y) /\
    (length ys <= length points)%nat /\
    length (ySamplesOf points) = (2 * length ys - 1)%nat.
Proof.
  exists (uniqueYs points).
  split; [|split; [|split]].
  - eapply Permutation_NoDup;
      [apply Permutation_sym, sortBy_perm | apply setAdd_NoDup].
  - apply uniqueYs_In.
  - apply uniqueYs_length.
  - apply buildSamples_count.
Qed.



(** ** The cache at the end of a run *)

Lemma mapGet_None (y : Q) (m : list (Q * ArrayRef)) :
  mapGet y m = None -> forall k r, In (k, r) m -> ~ (k == y)%Q.
Proof.
  induction m as [|[k' v] m IH]; simpl; [contradiction|].
  destruct (Qeq_bool k' y) eqn:E; [discriminate|].
  intros Hm k r [[= <- <-]|Hin].
  - intro Hc. apply Qeq_bool_iff in Hc. congruence.
  - eapply IH; eauto.
Qed.

Lemma combine_snoc {A B : Type} (l : list A) (l' : list B) (a : A) (b : B) :
  length l = length l' ->
  combine (l ++ [a]) (l' ++ [b]) = combine l l' ++ [(a, b)].
Proof.
  revert l'. induction l as [|x l IH]; intros [|y l'] H; simpl in *;
    try discriminate; [reflexivity|].
  f_equal. apply IH. lia.
Qed.

Lemma In_combine_seq (keys : list Q) (k : Q) :
  In k keys -> exists r, In (k, r) (combine keys (seq 0 (length keys))).
Proof.
  intro Hin. apply In_nth_error in Hin. destruct Hin as [i Hi].
  exists i. apply nth_error_In with (n := i).
  apply nth_error_combine_both. split; [exact Hi|].
  assert (i < length keys)%nat by (apply nth_error_Some; congruence).
  rewrite nth_error_seq. destruct (Nat.ltb_spec i (length keys)); [reflexivity|lia].
Qed.

Section CacheTight.
Variable points : list Point.
Variable verticalEdges : list VerticalEdge.
Variable horizontalEdges : list HorizontalEdge.

Local Abbreviation tight := (cacheTight points verticalEdges horizontalEdges).
Local Abbreviation query := (getCoverageAtY points verticalEdges horizontalEdges).
Local Abbreviation run := (runQueries points verticalEdges horizontalEdges).

Lemma cacheTight_empty : tight [] emptyStore.
Proof.
  repeat split. intros i j a b H. destruct i; discriminate.
Qed.

Lemma query_tight (y : Q) (keys : list Q) (st : Store) :
  tight keys st ->
  exists more, tight (keys ++ more) (snd (query y st)) /\ incl more [y].
Proof.
  intros (Hc & Ha & Hd).
  destruct (mapGet y (coverageCache st)) as [r|] eqn:E.
  - exists []. rewrite (query_hit _ _ _ _ _ _ E), app_nil_r. simpl.
    split; [repeat split; assumption|intros x []].
  - exists [y]. rewrite (query_miss _ _ _ _ _ E). split; [|apply incl_refl].
    assert (Hlen : length (arrays st) = length keys)
      by (rewrite Ha; apply length_map).
    repeat split; simpl.
    + rewrite length_app, Nat.add_1_r, seq_S, Hlen, Hc. simpl.
      symmetry. apply combine_snoc. now rewrite length_seq.
    + now rewrite Ha, map_app.
    + assert (Hfresh : forall k, In k keys -> ~ (k == y)%Q).
      { intros k Hk. destruct (In_combine_seq keys k Hk) as [r Hr].
        rewrite <- Hc in Hr. exact (mapGet_None y _ E k r Hr). }
      intros i j a b Hi Hj Hab.
      destruct (Nat.lt_ge_cases i (length keys)) as [Hil|Hil];
        destruct (Nat.lt_ge_cases j (length keys)) as [Hjl|Hjl].
      * rewrite nth_error_app1 in Hi, Hj by assumption. eauto.
      * exfalso. rewrite nth_error_app1 in Hi by assumption.
        rewrite nth_error_app2 in Hj by assumption.
        destruct (j - length keys)%nat as [|n]; simpl in Hj;
          [|destruct n; discriminate].
        injection Hj as <-. apply nth_error_In in Hi.
        exact (Hfresh a Hi Hab).
      * exfalso. rewrite nth_error_app1 in Hj by assumption.
        rewrite nth_error_app2 in Hi by assumption.
        destruct (i - length keys)%nat as [|n]; simpl in Hi;
          [|destruct n; discriminate].
        injection Hi as <-. apply nth_error_In in Hj.
        apply (Hfresh b Hj). now symmetry.
      * assert (Hi' : (i < length (keys ++ [y]))%nat)
          by (apply nth_error_Some; congruence).
        assert (Hj' : (j < length (keys ++ [y]))%nat)
          by (apply nth_error_Some; congruence).
        rewrite length_app in Hi', Hj'. simpl in Hi', Hj'. lia.
Qed.

Lemma runQueries_app (ys1 ys2 : list Q) (st : Store) :
  run (ys1 ++ ys2) st = run ys2 (run ys1 st).
Proof. apply fold_left_app. Qed.

Variable ySamples : list Q.

Lemma isRectangleValid_store (p1 p2 : Point) (st st' : Store) (b : bool) :
  cacheOk points verticalEdges horizontalEdges st ->
  isRectangleValid points verticalEdges horizontalEdges p1 p2 ySamples st
  = Some (b, st') ->
  cacheOk points verticalEdges horizontalEdges st' /\
  exists ys, incl ys ySamples /\ st' = run ys st.
Proof.
  intros Hok. unfold isRectangleValid.
  destruct (lowerBound ySamples _) as [startIdx|]; [|discriminate].
  set (rows := skipn (Z.to_nat startIdx) ySamples).
  assert (Hrows : incl rows ySamples).
  { intros x Hx. apply In_skipn_index in Hx. destruct Hx as (j & _ & Hj).
    eapply nth_error_In; eauto. }
  intros [= Hv].
  assert (Hb : fst (validLoop points verticalEdges horizontalEdges
                      (Z.min (px p1) (px p2)) (Z.max (px p1) (px p2))
                      (Z.max (py p1) (py p2)) rows st) = b)
    by now rewrite Hv.
  assert (Hst : snd (validLoop points verticalEdges horizontalEdges
                       (Z.min (px p1) (px p2)) (Z.max (px p1) (px p2))
                       (Z.max (py p1) (py p2)) rows st) = st')
    by now rewrite Hv.
  clear Hv.
  destruct (validLoop_trace points verticalEdges horizontalEdges
              (Z.min (px p1) (px p2)) (Z.max (px p1) (px p2))
              (Z.max (py p1) (py p2)) rows st Hok)
    as (visited & rest & Erows & _ & Hend).
  split.
  - rewrite <- Hst. now apply validLoop_cacheOk.
  - rewrite Hb, Hst in Hend. destruct b.
    + destruct Hend as [_ ->]. exists visited. split; [|reflexivity].
      intros x Hx. apply Hrows. rewrite Erows. apply in_or_app. now left.
    + destruct Hend as (s & rest' & -> & _ & _ & ->).
      exists (visited ++ [s]). split; [|reflexivity].
      intros x Hx. apply Hrows. rewrite Erows.
      apply in_app_or in Hx. apply in_or_app.
      destruct Hx as [Hx|[<-|[]]]; [now left|right; now left].
Qed.

End CacheTight.

(** ** Which rows a run asks for *)

Lemma StronglySorted_app_rel {A : Type} (R : A -> A -> Prop) (l1 l2 : list A) :
  StronglySorted R (l1 ++ l2) ->
  forall a b, In a l1 -> In b l2 -> R a b.
Proof.
  induction l1 as [|x l1 IH]; simpl; intros Hs a b Ha Hb; [contradiction|].
  inversion Hs as [|? ? Hs' Hall]; subst.
  destruct Ha as [<-|Ha].
  - rewrite Forall_forall in Hall. apply Hall, in_or_app. now right.
  - now apply IH.
Qed.

Lemma StronglySorted_weaken {A : Type} (R R' : A -> A -> Prop) (l : list A) :
  (forall a b, R a b -> R' a b) -> StronglySorted R l -> StronglySorted R' l.
Proof.
  intros Himp. induction 1 as [|a l Hs IH Ha]; constructor; auto.
  eapply Forall_impl; [|exact Ha]. auto.
Qed.

Lemma strictly_sorted_Qeq (l : list Q) :
  StronglySorted Qlt l ->
  forall a b, In a l -> In b l -> (a == b)%Q -> a = b.
Proof.
  induction 1 as [|x l Hs IH Hx]; intros a b Ha Hb Hab; [contradiction|].
  rewrite Forall_forall in Hx.
  destruct Ha as [<-|Ha], Hb as [<-|Hb].
  - reflexivity.
  - exfalso. specialize (Hx b Hb). rewrite Hab in Hx.
    exact (Qlt_irrefl _ Hx).
  - exfalso. specialize (Hx a Ha). rewrite Hab in Hx.
    exact (Qlt_irrefl _ Hx).
  - now apply IH.
Qed.

Lemma rows_from_lowerBound (ySamples : list Q) (target : Q) (startIdx : Z) :
  StronglySorted Qle ySamples ->
  Z.of_nat (length ySamples) < 2 ^ 30 ->
  lowerBound ySamples target = Some startIdx ->
  forall s, In s (skipn (Z.to_nat startIdx) ySamples) <->
            In s ySamples /\ (target <= s)%Q.
Proof.
  intros Hs Hshort Elb s.
  destruct (lowerBound_spec ySamples target Hshort Hs)
    as (i & E & Hrange & Hbelow & Habove).
  rewrite Elb in E. injection E as <-.
  rewrite In_skipn_index. split.
  - intros (j & Hj & Ej). split; [eapply nth_error_In; eauto|].
    apply (Habove (Z.of_nat j)); [lia|].
    unfold index. destruct (Z.ltb_spec (Z.of_nat j) 0); [lia|].
    now rewrite Nat2Z.id.
  - intros [Hin Hle]. apply In_nth_error in Hin. destruct Hin as [j Ej].
    exists j. split; [|exact Ej].
    destruct (Nat.le_gt_cases (Z.to_nat startIdx) j) as [|Hlt]; [assumption|].
    exfalso.
    assert (Ei : index ySamples (Z.of_nat j) = Some s).
    { unfold index. destruct (Z.ltb_spec (Z.of_nat j) 0); [lia|].
      now rewrite Nat2Z.id. }
    exact (Qlt_not_le _ _ (Hbelow (Z.of_nat j) s ltac:(lia) Ei) Hle).
Qed.

Section QueriedRows.
Variable points : list Point.
Variable verticalEdges : list VerticalEdge.
Variable horizontalEdges : list HorizontalEdge.

Local Abbreviation ok := (cacheOk points verticalEdges horizontalEdges).
Local Abbreviation run := (runQueries points verticalEdges horizontalEdges).
Local Abbreviation tight := (cacheTight points verticalEdges horizontalEdges).
Local Abbreviation query := (getCoverageAtY points verticalEdges horizontalEdges).

Lemma validLoop_queried (minX maxX maxY : Z) (rows : list Q) (st : Store) :
  ok st -> StronglySorted Qlt rows ->
  exists ys,
    snd (validLoop points verticalEdges horizontalEdges minX maxX maxY rows st)
    = run ys st /\
    forall s,
      In s ys <->
      In s rows /\ (s <= inject_Z maxY)%Q /\
      forall s', In s' rows -> (s' < s)%Q ->
                 coveredAt points verticalEdges horizontalEdges minX maxX s'.
Proof.
  intros Hok Hs.
  destruct (validLoop_trace points verticalEdges horizontalEdges
              minX maxX maxY rows st Hok)
    as (visited & rest & Erows & Hall & Hend).
  subst rows. rewrite Forall_forall in Hall.
  pose proof (StronglySorted_app_rel Qlt visited rest Hs) as Hcross.
  pose proof (StronglySorted_suffix Qlt visited rest Hs) as Hrest.
  assert (Hvis : forall s, In s visited ->
            In s (visited ++ rest) /\ (s <= inject_Z maxY)%Q /\
            forall s', In s' (visited ++ rest) -> (s' < s)%Q ->
              coveredAt points verticalEdges horizontalEdges minX maxX s').
  { intros s Hin. split; [apply in_or_app; now left|].
    split; [apply Hall, Hin|].
    intros s' Hs' Hlt. apply in_app_or in Hs'. destruct Hs' as [Hs'|Hs'].
    - apply Hall, Hs'.
    - exfalso. specialize (Hcross s s' Hin Hs').
      exact (Qlt_irrefl _ (Qlt_trans _ _ _ Hcross Hlt)). }
  destruct (fst (validLoop points verticalEdges horizontalEdges
                   minX maxX maxY (visited ++ rest) st)).
  - destruct Hend as [Hstop ->]. exists visited. split; [reflexivity|].
    intro s. split; [apply Hvis|].
    intros (Hin & Hle & _). apply in_app_or in Hin.
    destruct Hin as [Hin|Hin]; [exact Hin|].
    exfalso. destruct rest as [|h rest]; [contradiction|].
    apply Hstop. destruct Hin as [->|Hin]; [exact Hle|].
    inversion Hrest as [|? ? _ Hh]; subst. rewrite Forall_forall in Hh.
    apply Qlt_le_weak. eapply Qlt_le_trans; [apply Hh, Hin|exact Hle].
  - destruct Hend as (f & rest' & -> & Hf & Hnot & ->).
    exists (visited ++ [f]). split; [reflexivity|].
    inversion Hrest as [|? ? _ Hfr]; subst. rewrite Forall_forall in Hfr.
    intro s. split.
    + intro Hin. apply in_app_or in Hin. destruct Hin as [Hin|[<-|[]]].
      * now apply Hvis.
      * split; [apply in_or_app; right; now left|]. split; [exact Hf|].
        intros s' Hs' Hlt. apply in_app_or in Hs'.
        destruct Hs' as [Hs'|[<-|Hs']].
        -- apply Hall, Hs'.
        -- exfalso. exact (Qlt_irrefl _ Hlt).
        -- exfalso. specialize (Hfr s' Hs').
           exact (Qlt_irrefl _ (Qlt_trans _ _ _ Hfr Hlt)).
    + intros (Hin & Hle & Hearlier). apply in_or_app.
      apply in_app_or in Hin. destruct Hin as [Hin|[<-|Hin]].
      * now left.
      * right. now left.
      * exfalso. apply Hnot. apply Hearlier.
        -- apply in_or_app. right. now left.
        -- apply Hfr, Hin.
Qed.

Variable ySamples : list Q.
Hypothesis samples_strict : StronglySorted Qlt ySamples.
Hypothesis samples_short : Z.of_nat (length ySamples) < 2 ^ 30.

Local Abbreviation asked :=
  (rowQueried points verticalEdges horizontalEdges ySamples).

Lemma isRectangleValid_queried (p1 p2 : Point) (st st' : Store) (b : bool) :
  ok st ->
  isRectangleValid points verticalEdges horizontalEdges p1 p2 ySamples st
  = Some (b, st') ->
  ok st' /\
  exists ys, st' = run ys st /\ forall s, In s ys <-> asked p1 p2 s.
Proof.
  intros Hok E.
  assert (Hok' : ok st')
    by (destruct (isRectangleValid_store points verticalEdges horizontalEdges
                    ySamples p1 p2 st st' b Hok E); assumption).
  split; [exact Hok'|].
  unfold isRectangleValid in E.
  destruct (lowerBound ySamples (inject_Z (Z.min (py p1) (py p2))))
    as [startIdx|] eqn:Elb; [|discriminate].
  injection E as E.
  assert (Hle : StronglySorted Qle ySamples)
    by (eapply StronglySorted_weaken; [exact Qlt_le_weak|exact samples_strict]).
  pose proof (rows_from_lowerBound ySamples _ startIdx Hle samples_short Elb)
    as Hrows.
  assert (Hstrict : StronglySorted Qlt (skipn (Z.to_nat startIdx) ySamples)).
  { apply (StronglySorted_suffix Qlt (firstn (Z.to_nat startIdx) ySamples)).
    now rewrite firstn_skipn. }
  destruct (validLoop_queried (Z.min (px p1) (px p2)) (Z.max (px p1) (px p2))
              (Z.max (py p1) (py p2)) _ st Hok Hstrict) as (ys & Est & Hys).
  rewrite E in Est. simpl in Est.
  exists ys. split; [exact Est|].
  intro s. rewrite Hys. unfold rowQueried. split.
  - intros (Hin & Hmax & Hearlier). apply Hrows in Hin.
    destruct Hin as [Hin Hmin]. repeat split; auto.
    intros s' Hs' Hmin' Hlt. apply Hearlier; [|exact Hlt].
    apply Hrows. auto.
  - intros (Hin & Hmin & Hmax & Hearlier).
    split; [apply Hrows; auto|]. split; [exact Hmax|].
    intros s' Hs' Hlt. apply Hrows in Hs'. destruct Hs' as [Hs' Hmin'].
    now apply Hearlier.
Qed.

Lemma searchLoop_queried (ps : list (Point * Point)) :
  forall m st a st',
    ok st ->
    searchLoop points verticalEdges horizontalEdges ySamples ps m st
    = Some (a, st') ->
    exists ys,
      st' = run ys st /\
      forall s, In s ys <-> exists p1 p2, In (p1, p2) ps /\ asked p1 p2 s.
Proof.
  induction ps as [|[q1 q2] ps IH]; intros m st a st' Hok; simpl.
  - intros [= _ <-]. exists []. split; [reflexivity|].
    intro s. split; [contradiction|]. intros (p1 & p2 & [] & _).
  - destruct (isRectangleValid points verticalEdges horizontalEdges
                q1 q2 ySamples st) as [[b st1]|] eqn:E; [|discriminate].
    destruct (isRectangleValid_queried q1 q2 st st1 b Hok E)
      as (Hok1 & ys1 & -> & Hys1).
    intro Hs.
    assert (Hrest : exists ys,
               st' = run ys (run ys1 st) /\
               forall s, In s ys <-> exists p1 p2, In (p1, p2) ps /\ asked p1 p2 s).
    { destruct b; eapply IH; eauto. }
    destruct Hrest as (ys2 & -> & Hys2).
    exists (ys1 ++ ys2). split; [now rewrite runQueries_app|].
    intro s. rewrite in_app_iff, Hys1, Hys2. split.
    + intros [Hq|(p1 & p2 & Hin & Hq)].
      * exists q1, q2. split; [now left|exact Hq].
      * exists p1, p2. split; [now right|exact Hq].
    + intros (p1 & p2 & [[= <- <-]|Hin] & Hq); [now left|].
      right. exists p1, p2. auto.
Qed.

Lemma query_tight_entry (y : Q) (keys : list Q) (st : Store) :
  tight keys st ->
  exists more,
    tight (keys ++ more) (snd (query y st)) /\ incl more [y] /\
    exists k, In k (keys ++ more) /\ (k == y)%Q.
Proof.
  intros Ht. pose proof Ht as (Hc & Ha & Hd).
  destruct (mapGet y (coverageCache st)) as [r|] eqn:E.
  - exists []. rewrite (query_hit _ _ _ _ _ _ E), app_nil_r. simpl.
    split; [exact Ht|]. split; [intros x []|].
    destruct (mapGet_In _ _ _ E) as (k & Hk & Hky).
    exists k. split; [|exact Hky].
    rewrite Hc in Hk. eapply in_combine_l; eauto.
  - destruct (query_tight points verticalEdges horizontalEdges y keys st Ht)
      as (more & Ht' & Hinc).
    exists more. split; [exact Ht'|]. split; [exact Hinc|].
    (* on a miss the new key is [y] itself *)
    destruct Ht' as (Hc' & _ & _).
    rewrite (query_miss _ _ _ _ _ E) in Hc'. simpl in Hc'.
    assert (Hlast : In (y, length (arrays st))
                       (combine (keys ++ more) (seq 0 (length (keys ++ more)))))
      by (rewrite <- Hc'; apply in_or_app; right; now left).
    exists y. split; [eapply in_combine_l; eauto|reflexivity].
Qed.

Lemma runQueries_tight_entries (ys : list Q) :
  forall keys st,
    tight keys st ->
    exists more,
      tight (keys ++ more) (run ys st) /\ incl more ys /\
      forall y, In y ys -> exists k, In k (keys ++ more) /\ (k == y)%Q.
Proof.
  induction ys as [|y ys IH]; intros keys st Ht; simpl.
  - exists []. rewrite app_nil_r. split; [exact Ht|].
    split; [apply incl_refl|contradiction].
  - destruct (query_tight_entry y keys st Ht) as (m1 & Ht1 & Hi1 & k1 & Hk1 & Hky).
    destruct (IH _ _ Ht1) as (m2 & Ht2 & Hi2 & Hall).
    exists (m1 ++ m2). rewrite app_assoc. split; [exact Ht2|]. split.
    + apply incl_app.
      * intros x Hx. left. specialize (Hi1 x Hx). destruct Hi1 as [<-|[]].
        reflexivity.
      * now apply incl_tl.
    + intros z [<-|Hz]; [|now apply Hall].
      exists k1. split; [apply in_or_app; now left|exact Hky].
Qed.
End QueriedRows.

(** X14: when part2 finishes, the coverage cache holds exactly the sample
    rows that were asked for: a row is a key if and only if, for some index
    pair [i < j], it lies in the y-span of the pair's box and every earlier
    sample row of that span is covered.  The keys are pairwise different,
    the i-th entry refers to the i-th array that was allocated, and that
    array is the coverage computed for its key. *)
Theorem part2_final_cache (points : list Point) :
  Z.of_nat (length points) < 2 ^ 29 ->
  Forall (fun p => Z.abs (py p) < 2 ^ 52) points ->
  exists (a : Z) (st : Store) (keys : list Q),
    part2State points = Some (a, st) /\
    cacheTight points (verticalEdgesOf points) (horizontalEdgesOf points)
               keys st /\
    (forall s,
        In s keys <->
        exists i j p1 p2,
          (i < j)%nat /\ nth_error points i = Some p1 /\
          nth_error points j = Some p2 /\
          rowQueried points (verticalEdgesOf points) (horizontalEdgesOf points)
                     (ySamplesOf points) p1 p2 s) /\
    (length keys <= length (ySamplesOf points))%nat.
Proof.
  intros Hlen _.
  destruct (part2_max points Hlen) as (a & E & _).
  unfold part2 in E.
  destruct (part2State points) as [[a' st]|] eqn:Est; [|discriminate].
  simpl in E. injection E as ->.
  exists a, st.
  assert (Hshort : Z.of_nat (length (ySamplesOf points)) < 2 ^ 30)
    by (pose proof (ySamplesOf_length points); lia).
  pose proof (ySamplesOf_sorted points) as Hstrict.
  unfold part2State, verticalEdgesOf, horizontalEdgesOf in *.
  destruct (buildEdges (edgePairs points)) as [hs vs]. simpl.
  apply (searchLoop_queried points vs hs (ySamplesOf points) Hstrict Hshort)
    in Est; [|apply cacheOk_empty].
  destruct Est as (ys & -> & Hys).
  destruct (runQueries_tight_entries points vs hs ys [] emptyStore
              (cacheTight_empty points vs hs)) as (keys & Ht & Hk & Hentry).
  simpl in Ht, Hentry. exists keys.
  assert (Hsamples : forall s, In s ys -> In s (ySamplesOf points)).
  { intros s Hs. apply Hys in Hs. destruct Hs as (p1 & p2 & _ & Hq).
    apply Hq. }
  assert (Hchar : forall s, In s keys <-> In s ys).
  { intro s. split; [apply Hk|].
    intro Hs. destruct (Hentry s Hs) as (k & Hkin & Hks).
    assert (k = s).
    { apply (strictly_sorted_Qeq (ySamplesOf points) Hstrict); auto. }
    now subst k. }
  split; [reflexivity|]. split; [exact Ht|]. split.
  - intro s. rewrite Hchar, Hys. split.
    + intros (p1 & p2 & Hin & Hq). apply pairs_index in Hin.
      destruct Hin as (i & j & Hij & H1 & H2). exists i, j, p1, p2. auto.
    + intros (i & j & p1 & p2 & Hij & H1 & H2 & Hq). exists p1, p2.
      split; [apply pairs_index; eauto|exact Hq].
  - apply NoDup_incl_length.
    + destruct Ht as (_ & _ & Hd).
      apply NoDup_nth_error. intros i j Hi Hij.
      destruct (nth_error keys i) as [k|] eqn:Ei.
      * apply (Hd i j k k Ei); [now symmetry|reflexivity].
      * apply nth_error_None in Ei. lia.
    + intros x Hx. apply Hsamples, Hk, Hx.
Qed.

(** ** mergeRanges computes a canonical form *)

Lemma canonical_tail_after (a : Range) (l : list Range) :
  Sorted apart (a :: l) ->
  Forall (fun r => rstart r <= rend r) (a :: l) ->
  Forall (fun r => rend a < rstart r) l.
Proof.
  revert a. induction l as [|b l IH]; intros a Hs Hwf; [constructor|].
  inversion Hs as [|? ? Hs' Hhd]; subst.
  inversion Hhd as [|? ? Hab]; subst. unfold apart in Hab.
  inversion Hwf as [|? ? _ Hwf']; subst.
  inversion Hwf' as [|? ? Hb _]; subst.
  constructor; [exact Hab|].
  eapply Forall_impl; [|apply (IH b Hs' Hwf')].
  intros r Hr. simpl in Hr. lia.
Qed.

Lemma covers_nil (t : R) : ~ covers [] t.
Proof. intros (r & [] & _). Qed.

Lemma canonical_unique (l1 : list Range) :
  forall l2,
    Sorted apart l1 -> Forall (fun r => rstart r <= rend r) l1 ->
    Sorted apart l2 -> Forall (fun r => rstart r <= rend r) l2 ->
    (forall t : R, covers l1 t <-> covers l2 t) ->
    l1 = l2.
Proof.
  induction l1 as [|a l1 IH]; intros [|b l2] Hs1 Hw1 Hs2 Hw2 Hcov.
  - reflexivity.
  - exfalso. apply (covers_nil (IZR (rstart b))). apply Hcov.
    inversion Hw2 as [|? ? Hb _]; subst. apply IZR_le in Hb.
    exists b. split; [now left|lra].
  - exfalso. apply (covers_nil (IZR (rstart a))). apply Hcov.
    inversion Hw1 as [|? ? Ha _]; subst. apply IZR_le in Ha.
    exists a. split; [now left|lra].
  - pose proof (canonical_tail_after a l1 Hs1 Hw1) as Ht1.
    pose proof (canonical_tail_after b l2 Hs2 Hw2) as Ht2.
    rewrite Forall_forall in Ht1, Ht2.
    inversion Hw1 as [|? ? Ha Hw1']; subst.
    inversion Hw2 as [|? ? Hb Hw2']; subst.
    assert (Hw1f := Hw1'). assert (Hw2f := Hw2').
    rewrite Forall_forall in Hw1f, Hw2f.
    (* a point of one head that lies outside the other head *)
    assert (Hhead : forall (x y : Range) (lx ly : list Range) (t : R),
               rstart y <= rend y ->
               (forall r, In r ly -> rend y < rstart r) ->
               (forall u, covers (x :: lx) u -> covers (y :: ly) u) ->
               (IZR (rstart x) <= t <= IZR (rend x))%R ->
               (t < IZR (rstart y))%R \/
               ((IZR (rend y) < t)%R /\
                forall r, In r ly -> (t < IZR (rstart r))%R) ->
               False).
    { intros x y lx ly t Hy Hty Hsub Hin Hout.
      assert (Hc : covers (y :: ly) t)
        by (apply Hsub; exists x; split; [now left|exact Hin]).
      apply IZR_le in Hy.
      destruct Hc as (r & [<-|Hr] & Hr1).
      - destruct Hout as [Hout|[Hout _]]; lra.
      - specialize (Hty r Hr). apply IZR_lt in Hty.
        destruct Hout as [Hout|[_ Hout]].
        + lra.
        + specialize (Hout r Hr). lra. }
    assert (Hstart : forall (x y : Range) (lx ly : list Range),
               rstart x <= rend x -> rstart y <= rend y ->
               (forall r, In r ly -> rend y < rstart r) ->
               (forall u, covers (x :: lx) u -> covers (y :: ly) u) ->
               rstart y <= rstart x).
    { intros x y lx ly Hx Hy Hty Hsub.
      destruct (Z.le_gt_cases (rstart y) (rstart x)) as [|Hgt]; [assumption|].
      exfalso. apply (Hhead x y lx ly (IZR (rstart x)) Hy Hty Hsub).
      - apply IZR_le in Hx. lra.
      - left. now apply IZR_lt. }
    assert (Hend : forall (x y : Range) (lx ly : list Range),
               rstart x = rstart y ->
               rstart x <= rend x -> rstart y <= rend y ->
               (forall r, In r ly -> rend y < rstart r) ->
               (forall u, covers (x :: lx) u -> covers (y :: ly) u) ->
               rend x <= rend y).
    { intros x y lx ly Hxy Hx Hy Hty Hsub.
      destruct (Z.le_gt_cases (rend x) (rend y)) as [|Hgt]; [assumption|].
      exfalso.
      apply (Hhead x y lx ly (IZR (rend y) + / 2)%R Hy Hty Hsub).
      - assert (rend y + 1 <= rend x) as H1 by lia.
        apply IZR_le in H1, Hy. rewrite plus_IZR in H1.
        rewrite Hxy. lra.
      - right. split; [lra|]. intros r Hr. specialize (Hty r Hr).
        assert (rend y + 1 <= rstart r) as H1 by lia.
        apply IZR_le in H1. rewrite plus_IZR in H1. lra. }
    assert (Hsa : rstart a = rstart b).
    { apply Z.le_antisymm.
      - apply (Hstart b a l2 l1 Hb Ha Ht1). intros u. apply Hcov.
      - apply (Hstart a b l1 l2 Ha Hb Ht2). intros u. apply Hcov. }
    assert (Hea : rend a = rend b).
    { apply Z.le_antisymm.
      - apply (Hend a b l1 l2 Hsa Ha Hb Ht2). intros u. apply Hcov.
      - apply (Hend b a l2 l1 (eq_sym Hsa) Hb Ha Ht1). intros u. apply Hcov. }
    assert (Hab : a = b) by (destruct a, b; simpl in *; congruence).
    subst b. f_equal.
    apply IH; try assumption.
    + now inversion Hs1.
    + now inversion Hs2.
    + assert (Htail : forall (lx ly : list Range),
                 (forall r, In r lx -> rend a < rstart r) ->
                 (forall u, covers (a :: lx) u -> covers (a :: ly) u) ->
                 forall t, covers lx t -> covers ly t).
      { intros lx ly Hlx Hsub t (r & Hr & Hrt).
        assert (Hc : covers (a :: ly) t)
          by (apply Hsub; exists r; split; [now right|exact Hrt]).
        destruct Hc as (r' & [<-|Hr'] & Hr't).
        - specialize (Hlx r Hr). apply IZR_lt in Hlx. lra.
        - now exists r'. }
      intro t. split.
      * apply (Htail l1 l2 Ht1). intro u. apply Hcov.
      * apply (Htail l2 l1 Ht2). intro u. apply Hcov.
Qed.

(** X16: mergeRanges computes a canonical form: two lists of ranges with
    [start <= end] that cover the same points are merged to the same list.
    In particular the result does not depend on the order of the input. *)
Theorem mergeRanges_canonical (ranges ranges' : list Range) :
  Forall (fun r => rstart r <= rend r) ranges ->
  Forall (fun r => rstart r <= rend r) ranges' ->
  ((forall t : R, covers ranges t <-> covers ranges' t) ->
   mergeRanges ranges = mergeRanges ranges') /\
  (Permutation ranges ranges' -> mergeRanges ranges = mergeRanges ranges').
Proof.
  intros Hw Hw'.
  assert (Hsame : (forall t : R, covers ranges t <-> covers ranges' t) ->
                  mergeRanges ranges = mergeRanges ranges').
  { intro Hcov. apply canonical_unique.
    - apply mergeRanges_apart.
    - now apply mergeRanges_wellformed.
    - apply mergeRanges_apart.
    - now apply mergeRanges_wellformed.
    - intro t. rewrite !mergeRanges_covers. apply Hcov. }
  split; [exact Hsame|].
  intro HP. apply Hsame. intro t. now apply covers_perm.
Qed.

(** ** Horizontal edges are valid rectangles *)

Lemma horizontal_edge_covered (points : list Point) (p1 p2 : Point) :
  In (p1, p2) (edgePairs points) -> py p1 = py p2 ->
  forall q1 q2,
    (q1 = p1 /\ q2 = p2) \/ (q1 = p2 /\ q2 = p1) ->
    rectCovered points (verticalEdgesOf points) (horizontalEdgesOf points)
                (ySamplesOf points) q1 q2.
Proof.
  intros Hin Hy q1 q2 Hq s _ [Hlo Hhi].
  assert (Hs : (inject_Z (py p1) == s)%Q).
  { apply Qle_antisym.
    - destruct Hq as [[-> ->]|[-> ->]]; rewrite <- Hy in Hlo;
        rewrite Z.min_id in Hlo; exact Hlo.
    - destruct Hq as [[-> ->]|[-> ->]]; rewrite <- Hy in Hhi;
        rewrite Z.max_id in Hhi; exact Hhi. }
  unfold coveredAt.
  rewrite <- (computeCoverage_Qeq points _ _ _ _ Hs).
  assert (Hp1 : In p1 points).
  { apply edgePairs_In in Hin. destruct Hin as (i & Hi & _).
    eapply nth_error_In; eauto. }
  assert (Hv : isAtVertex points (inject_Z (py p1)) = true).
  { apply isAtVertex_spec. exists p1. split; [exact Hp1|reflexivity]. }
  unfold computeCoverage. rewrite Hv.
  set (span := mkRange (Z.min (px p1) (px p2)) (Z.max (px p1) (px p2))).
  assert (Hspan : In span (horizontalSpans (horizontalEdgesOf points)
                                           (inject_Z (py p1)))).
  { unfold horizontalSpans. apply in_map_iff.
    exists (mkHEdge (py p1) (Z.min (px p1) (px p2)) (Z.max (px p1) (px p2))).
    split; [reflexivity|]. apply filter_In. split.
    - unfold horizontalEdgesOf. apply buildEdges_horizontal.
      exists p1, p2. auto.
    - simpl. apply Qeq_bool_iff. reflexivity. }
  destruct (mergeRanges_contains
              (getInteriorAtY (inject_Z (py p1) + eps) (verticalEdgesOf points) ++
               getInteriorAtY (inject_Z (py p1) - eps) (verticalEdgesOf points) ++
               horizontalSpans (horizontalEdgesOf points) (inject_Z (py p1)))
              span) as (r' & Hr' & H1 & H2).
  { apply in_or_app. right. apply in_or_app. now right. }
  exists r'. split; [exact Hr'|].
  simpl in H1, H2. destruct Hq as [[-> ->]|[-> ->]]; lia.
Qed.

(** X17: a horizontal polygon edge is itself a valid rectangle: when a
    point and its cyclic successor have the same y (at least two points,
    coordinates of magnitude at most [2^25] so that areas and midpoints
    are exact), part2 returns at least the number of lattice points on
    that edge. *)
Theorem part2_at_least_horizontal_edge (points : list Point)
    (i : nat) (p1 p2 : Point) :
  Z.of_nat (length points) < 2 ^ 29 ->
  Forall (fun p => Z.abs (px p) <= 2 ^ 25 /\ Z.abs (py p) <= 2 ^ 25) points ->
  (2 <= length points)%nat ->
  nth_error points i = Some p1 ->
  nth_error points ((i + 1) mod length points) = Some p2 ->
  py p1 = py p2 ->
  exists a, part2 points = Some a /\ Z.abs (px p2 - px p1) + 1 <= a.
Proof.
  intros Hlen _ Hn H1 H2 Hy.
  destruct (part2_max points Hlen) as (a & E & Hall & _).
  exists a. split; [exact E|].
  assert (Hedge : In (p1, p2) (edgePairs points))
    by (apply edgePairs_In; eauto).
  assert (Hi : (i < length points)%nat)
    by (apply nth_error_Some; congruence).
  assert (Harea : area p1 p2 = Z.abs (px p2 - px p1) + 1).
  { unfold area. rewrite Hy, Z.sub_diag. simpl. lia. }
  destruct (Nat.eq_dec (i + 1) (length points)) as [Hlast|Hmid].
  - rewrite Hlast, Nat.Div0.mod_same in H2.
    rewrite <- Harea, area_comm. apply Hall.
    + apply pairs_index. exists 0%nat, i. repeat split; [lia|exact H2|exact H1].
    + apply (horizontal_edge_covered points p1 p2 Hedge Hy). now right.
  - rewrite Nat.mod_small in H2 by lia.
    rewrite <- Harea. apply Hall.
    + apply pairs_index. exists i, (i + 1)%nat.
      repeat split; [lia|exact H1|exact H2].
    + apply (horizontal_edge_covered points p1 p2 Hedge Hy). now left.
Qed.

(** ** Instances of the further properties *)

Lemma part1_order_independent_witness :
  Permutation [mkPoint 0 0; mkPoint 4 1; mkPoint 2 7]
              [mkPoint 4 1; mkPoint 0 0; mkPoint 2 7] /\
  part1 [mkPoint 0 0; mkPoint 4 1; mkPoint 2 7] =
  part1 [mkPoint 4 1; mkPoint 0 0; mkPoint 2 7].
Proof.
  assert (H : Permutation [mkPoint 0 0; mkPoint 4 1; mkPoint 2 7]
                          [mkPoint 4 1; mkPoint 0 0; mkPoint 2 7])
    by apply perm_swap.
  split; [exact H|exact (part1_order_independent _ _ H)].
Defined.

Lemma mergeRanges_contains_inputs_witness :
  In (mkRange 2 6) [mkRange 5 8; mkRange 1 3; mkRange 2 6] /\
  exists r', In r' (mergeRanges [mkRange 5 8; mkRange 1 3; mkRange 2 6]) /\
             rstart r' <= 2 /\ 6 <= rend r'.
Proof.
  assert (H : In (mkRange 2 6) [mkRange 5 8; mkRange 1 3; mkRange 2 6])
    by (simpl; auto).
  split; [exact H|].
  exact (mergeRanges_contains_inputs _ (mkRange 2 6) H).
Defined.

Lemma lowerBound_any_array_witness :
  Z.of_nat (length [3; 1; 2]%Q) < 2 ^ 30 /\
  exists i,
    lowerBound [3; 1; 2]%Q 2 = Some i /\
    0 <= i <= Z.of_nat (length [3; 1; 2]%Q) /\
    (forall v, index [3; 1; 2]%Q (i - 1) = Some v -> (v < 2)%Q) /\
    (forall v, index [3; 1; 2]%Q i = Some v -> (2 <= v)%Q) /\
    ((forall v, In v [3; 1; 2]%Q -> (v < 2)%Q) ->
     i = Z.of_nat (length [3; 1; 2]%Q)) /\
    ((forall v, In v [3; 1; 2]%Q -> (2 <= v)%Q) -> i = 0).
Proof.
  assert (H : Z.of_nat (length [3; 1; 2]%Q) < 2 ^ 30)
    by (vm_compute; reflexivity).
  split; [exact H|exact (lowerBound_any_array [3; 1; 2]%Q 2 H)].
Defined.

Lemma lowerBound_counts_below_witness :
  Sorted Qle [1; 2; 2; 5]%Q /\
  Z.of_nat (length [1; 2; 2; 5]%Q) < 2 ^ 30 /\
  lowerBound [1; 2; 2; 5]%Q 2 =
  Some (Z.of_nat (length (filter (fun v => Qltb v 2) [1; 2; 2; 5]%Q))).
Proof.
  assert (Hs : Sorted Qle [1; 2; 2; 5]%Q)
    by (repeat constructor; discriminate).
  assert (Hl : Z.of_nat (length [1; 2; 2; 5]%Q) < 2 ^ 30)
    by (vm_compute; reflexivity).
  split; [exact Hs|]. split; [exact Hl|].
  exact (lowerBound_counts_below _ 2 Hs Hl).
Defined.

Lemma isRectangleValid_monotone_witness :
  let vs := verticalEdgesOf examplePolygon in
  let hs := horizontalEdgesOf examplePolygon in
  let ySamples := ySamplesOf examplePolygon in
  let valid p q :=
    option_map fst (isRectangleValid examplePolygon vs hs p q ySamples emptyStore) in
  valid (mkPoint 9 5) (mkPoint 2 3) = Some true /\
  valid (mkPoint 7 3) (mkPoint 9 5) = Some true.
Proof.
  cbv zeta.
  assert (Hs : Sorted Qle (ySamplesOf examplePolygon))
    by (vm_compute; repeat constructor; discriminate).
  assert (Hl : Z.of_nat (length (ySamplesOf examplePolygon)) < 2 ^ 30)
    by (vm_compute; reflexivity).
  assert (Hp : option_map fst
                 (isRectangleValid examplePolygon (verticalEdgesOf examplePolygon)
                    (horizontalEdgesOf examplePolygon) (mkPoint 9 5) (mkPoint 2 3)
                    (ySamplesOf examplePolygon) emptyStore) = Some true)
    by (vm_compute; reflexivity).
  split; [exact Hp|].
  apply (isRectangleValid_monotone examplePolygon
           (verticalEdgesOf examplePolygon) (horizontalEdgesOf examplePolygon)
           (ySamplesOf examplePolygon)
           (mkPoint 9 5) (mkPoint 2 3) (mkPoint 7 3) (mkPoint 9 5)
           emptyStore emptyStore Hs Hl);
    [constructor | constructor | simpl; lia | simpl; lia | simpl; lia
    | simpl; lia | exact Hp].
Defined.


Lemma part2_final_cache_witness :
  let vs := verticalEdgesOf examplePolygon in
  let hs := horizontalEdgesOf examplePolygon in
  Z.of_nat (length examplePolygon) < 2 ^ 29 /\
  Forall (fun p => Z.abs (py p) < 2 ^ 52) examplePolygon /\
  exists (a : Z) (st : Store) (keys : list Q),
    part2State examplePolygon = Some (a, st) /\
    cacheTight examplePolygon vs hs keys st /\
    (forall s,
        In s keys <->
        exists i j p1 p2,
          (i < j)%nat /\ nth_error examplePolygon i = Some p1 /\
          nth_error examplePolygon j = Some p2 /\
          rowQueried examplePolygon vs hs (ySamplesOf examplePolygon) p1 p2 s) /\
    (length keys <= length (ySamplesOf examplePolygon))%nat.
Proof.
  cbv zeta.
  assert (H : Z.of_nat (length examplePolygon) < 2 ^ 29)
    by (vm_compute; reflexivity).
  assert (Hb : Forall (fun p => Z.abs (py p) < 2 ^ 52) examplePolygon)
    by (repeat constructor; simpl; lia).
  split; [exact H|]. split; [exact Hb|].
  exact (part2_final_cache examplePolygon H Hb).
Defined.

Lemma mergeRanges_canonical_witness :
  let l := [mkRange 5 8; mkRange 1 3; mkRange 2 6] in
  let l' := [mkRange 1 3; mkRange 5 8; mkRange 2 6] in
  Forall (fun r => rstart r <= rend r) l /\
  Forall (fun r => rstart r <= rend r) l' /\
  ((forall t : R, covers l t <-> covers l' t) ->
   mergeRanges l = mergeRanges l') /\
  (Permutation l l' -> mergeRanges l = mergeRanges l').
Proof.
  cbv zeta.
  assert (H : Forall (fun r => rstart r <= rend r)
                     [mkRange 5 8; mkRange 1 3; mkRange 2 6])
    by (repeat constructor; simpl; lia).
  assert (H' : Forall (fun r => rstart r <= rend r)
                      [mkRange 1 3; mkRange 5 8; mkRange 2 6])
    by (repeat constructor; simpl; lia).
  split; [exact H|]. split; [exact H'|].
  exact (mergeRanges_canonical _ _ H H').
Defined.

Lemma part2_at_least_horizontal_edge_witness :
  Z.of_nat (length squarePolygon) < 2 ^ 29 /\
  Forall (fun p => Z.abs (px p) <= 2 ^ 25 /\ Z.abs (py p) <= 2 ^ 25)
         squarePolygon /\
  (2 <= length squarePolygon)%nat /\
  nth_error squarePolygon 0 = Some (mkPoint 0 0) /\
  nth_error squarePolygon ((0 + 1) mod length squarePolygon)
  = Some (mkPoint 10 0) /\
  exists a, part2 squarePolygon = Some a /\ Z.abs (10 - 0) + 1 <= a.
Proof.
  assert (H : Z.of_nat (length squarePolygon) < 2 ^ 29)
    by (vm_compute; reflexivity).
  assert (Hb : Forall (fun p => Z.abs (px p) <= 2 ^ 25 /\ Z.abs (py p) <= 2 ^ 25)
                      squarePolygon)
    by (repeat constructor; simpl; lia).
  assert (Hn : (2 <= length squarePolygon)%nat) by (simpl; lia).
  split; [exact H|]. split; [exact Hb|]. split; [exact Hn|].
  split; [reflexivity|]. split; [reflexivity|].
  exact (part2_at_least_horizontal_edge squarePolygon 0
           (mkPoint 0 0) (mkPoint 10 0) H Hb Hn eq_refl eq_refl eq_refl).
Defined.
